(** * RAG service: chunker, masker, mock vector index and HTTP handlers

    A shallow embedding of
      - app/utils/security.py            (mask_sensitive_data)
      - app/services/pdf_processor.py    (PDFProcessor)
      - app/services/vector_store.py     (VectorStore)
      - app/services/embedding_service.py (EmbeddingService)
      - app/services/azure_blob_client.py (AzureBlobClient)
      - app/main.py                      (upload_pdfs, query_documents,
                                          delete_document)
    followed by the properties of these functions. The Azure SDKs, the
    PDF parser and [uuid] are an interface ([SDK]) over an abstract
    outside world; calls to the logger are left out, except where the
    evaluation of their arguments can fail.

    Python [int] is [Z]; a Python [str] is a list of characters, a
    character being one of the 256 code points U+0000..U+00FF carried by
    [ascii]; list and string slices follow Python's rules for negative
    and out-of-range bounds. *)

From Stdlib Require Import ZArith Ascii String List Lia.
From Stdlib Require QArith.
From stdpp Require Import base numbers option list strings gmap pretty.

Local Open Scope Z_scope.

(** ** Python values *)

Module Py.

Abbreviation str := (list ascii).

(** A string literal. *)
Definition lit (s : string) : str := list_ascii_of_string s.

Definition len {A} (l : list A) : Z := Z.of_nat (length l).

(** Truth value of a sequence: empty is falsy. *)
Definition truthy {A} (l : list A) : bool :=
  match l with [] => false | _ :: _ => true end.

(** A slice bound [i] on a sequence of length [n]: a negative bound
    counts from the end, and the result is clamped to [0..n]. *)
Definition slice_bound (n i : Z) : Z :=
  if i <? 0 then Z.max (i + n) 0 else Z.min i n.

(** [l[lo:hi]], either bound possibly omitted. *)
Definition slice {A} (l : list A) (lo hi : option Z) : list A :=
  let n := len l in
  let a := from_option (slice_bound n) 0 lo in
  let b := from_option (slice_bound n) n hi in
  take (Z.to_nat (b - a)) (drop (Z.to_nat a) l).

(** [s * n] for a sequence [s]. *)
Definition mul {A} (s : list A) (n : Z) : list A :=
  mjoin (replicate (Z.to_nat n) s).

Definition code (c : ascii) : N := N_of_ascii c.

Definition in_range (lo hi : N) (c : ascii) : bool :=
  ((lo <=? code c) && (code c <=? hi))%N.

(** [str.isspace] on one character (code points below 256). *)
Definition isspace (c : ascii) : bool :=
  in_range 9 13 c || in_range 28 32 c
  || (code c =? 133)%N || (code c =? 160)%N.

Fixpoint lstrip (s : str) : str :=
  match s with
  | c :: s' => if isspace c then lstrip s' else s
  | [] => []
  end.

Definition rstrip (s : str) : str := rev (lstrip (rev s)).

(** [s.strip()] *)
Definition strip (s : str) : str := rstrip (lstrip s).

(** ["\n"] *)
Definition newline : str := ["010"%char].

(** [c in s] for a one-character [c]. *)
Definition contains (c : ascii) (s : str) : bool :=
  existsb (Ascii.eqb c) s.

(** [range(start, stop, step)] for a positive [step]. *)
Definition range (start stop step : Z) : list Z :=
  (λ k, start + k * step) <$> seqZ 0 ((stop - start + step - 1) `div` step).

(** [s.endswith(suffix)] *)
Definition endswith (s suffix : str) : bool :=
  bool_decide (slice s (Some (len s - len suffix)) None = suffix)
  && (len suffix <=? len s).

End Py.

Import Py.

(** ** app/services/pdf_processor.py *)

Record PDFProcessor := {
  chunk_size : Z;
  chunk_overlap : Z
}.

(** [PDFProcessor()] with the default arguments of [__init__]. *)
Definition PDFProcessor_init : PDFProcessor :=
  {| chunk_size := 1000; chunk_overlap := 200 |}.

(** The [while] loop of [_create_chunks]. One unit of fuel pays for one
    evaluation of the loop condition; [None] means the fuel ran out with
    the condition still true. *)
Fixpoint create_chunks_loop (fuel : nat) (self : PDFProcessor) (text : str)
    (start : Z) (chunks : list str) : option (list str) :=
  match fuel with
  | O => None
  | S fuel' =>
      if start <? len text then
        let end_ := start + chunk_size self in
        let chunk := slice text (Some start) (Some end_) in
        let chunks := if truthy (strip chunk) then chunks ++ [chunk] else chunks in
        create_chunks_loop fuel' self text
          (start + (chunk_size self - chunk_overlap self)) chunks
      else Some chunks
  end.

(** [_create_chunks]: the loop started at [start = 0] with no chunks.
    The loop is given one unit of fuel more than the text has
    characters; [fuel_adequate] below shows that a run which ends at all
    ends within that fuel, so that [None] stands for a loop that never
    exits. *)
Definition _create_chunks (self : PDFProcessor) (text : str)
    : option (list str) :=
  create_chunks_loop (S (length text)) self text 0 [].

(** The same loop, recording next to every appended chunk the value of
    [start] at which it was cut. *)
Fixpoint create_chunks_spans (fuel : nat) (self : PDFProcessor) (text : str)
    (start : Z) (spans : list (Z * str)) : option (list (Z * str)) :=
  match fuel with
  | O => None
  | S fuel' =>
      if start <? len text then
        let end_ := start + chunk_size self in
        let chunk := slice text (Some start) (Some end_) in
        let spans := if truthy (strip chunk) then spans ++ [(start, chunk)] else spans in
        create_chunks_spans fuel' self text
          (start + (chunk_size self - chunk_overlap self)) spans
      else Some spans
  end.

(** Number of text positions two recorded chunks have in common. *)
Definition shared (a b : Z * str) : Z :=
  Z.max 0 (Z.min (a.1 + len a.2) (b.1 + len b.2) - Z.max a.1 b.1).

(** The windows the specification describes: one per [start] in
    [0, step, 2 * step, ...] below [len text], each [chunk_size] long
    at most, blank ones dropped. *)
Definition window (self : PDFProcessor) (text : str) (start : Z) : str :=
  slice text (Some start) (Some (start + chunk_size self)).

Definition nonblank (chunk : str) : bool := truthy (strip chunk).

Definition window_starts (self : PDFProcessor) (text : str) : list Z :=
  range 0 (len text) (chunk_size self - chunk_overlap self).

Definition windows_spec (self : PDFProcessor) (text : str) : list str :=
  filter (λ c, nonblank c = true) (window self text <$> window_starts self text).

(** The same windows, each next to its start. *)
Definition spans_spec (self : PDFProcessor) (text : str) : list (Z * str) :=
  filter (λ span, nonblank span.2 = true)
         ((λ start, (start, window self text start)) <$> window_starts self text).

(** The specification's overlap property of a produced sequence: any
    two adjacent chunks share exactly [chunk_overlap] characters, the
    pair that ends in the final chunk excepted. *)
Definition adjacent_share_overlap (self : PDFProcessor)
    (spans : list (Z * str)) : Prop :=
  ∀ (i : nat) (a b : Z * str),
    spans !! i = Some a → spans !! S i = Some b →
    (S (S i) < length spans)%nat →
    shared a b = chunk_overlap self.

(** ** The [re] module, as far as the masker uses it

    A backtracking matcher for patterns built from [\b], single
    characters, and greedy repetitions [cls{n,}] of a character class. A
    position in the subject is the character before it (if any) together
    with the characters from it on. *)

Module re.

Inductive regex :=
| WordBoundary
| Char (c : ascii)
| AtLeast (n : nat) (cls : ascii → bool)
| Seq (r1 r2 : regex).

(** [str.isalnum] on one character (code points below 256). *)
Definition isalnum (c : ascii) : bool :=
  in_range 48 57 c || in_range 65 90 c || in_range 97 122 c
  || (code c =? 170)%N || in_range 178 179 c || (code c =? 181)%N
  || in_range 185 186 c || in_range 188 190 c
  || in_range 192 214 c || in_range 216 246 c || in_range 248 255 c.

(** [\w] of a [str] pattern. *)
Definition isword (c : ascii) : bool := isalnum c || (code c =? 95)%N.

(** [\b] holds between a word character and a non-word character or
    an end of the subject. *)
Definition at_boundary (prev : option ascii) (s : str) : bool :=
  xorb (from_option isword false prev)
       (match s with c :: _ => isword c | [] => false end).

Section run.
Context {R : Type}.

(** [cls{n,}], greedy: the longest run first, then ever shorter ones
    down to [n] characters, until the continuation accepts. *)
Fixpoint greedy (cls : ascii → bool) (n : nat) (prev : option ascii)
    (s : str) (k : option ascii → str → option R) : option R :=
  let stop := match n with O => k prev s | S _ => None end in
  match s with
  | c :: s' =>
      if cls c then
        match greedy cls (pred n) (Some c) s' k with
        | Some r => Some r
        | None => stop
        end
      else stop
  | [] => stop
  end.

Fixpoint run (r : regex) (prev : option ascii) (s : str)
    (k : option ascii → str → option R) : option R :=
  match r with
  | WordBoundary => if at_boundary prev s then k prev s else None
  | Char c =>
      match s with
      | c' :: s' => if Ascii.eqb c c' then k (Some c') s' else None
      | [] => None
      end
  | AtLeast n cls => greedy cls n prev s k
  | Seq r1 r2 => run r1 prev s (λ prev' s', run r2 prev' s' k)
  end.
End run.

(** The character before the position reached by reading [m] from a
    position that has [prev] before it. *)
Definition last_before (prev : option ascii) (m : str) : option ascii :=
  match last m with
  | Some c => Some c
  | None => prev
  end.

(** What the patterns mean: [matches r prev m rest] when [r] matches
    exactly the characters [m], found between [prev] and [rest]. *)
Inductive matches : regex → option ascii → str → str → Prop :=
| matches_boundary prev rest :
    at_boundary prev rest = true →
    matches WordBoundary prev [] rest
| matches_char c prev rest :
    matches (Char c) prev [c] rest
| matches_at_least n cls prev m rest :
    (n ≤ length m)%nat → forallb cls m = true →
    matches (AtLeast n cls) prev m rest
| matches_seq r1 r2 prev m1 m2 rest :
    matches r1 prev m1 (m2 ++ rest) →
    matches r2 (last_before prev m1) m2 rest →
    matches (Seq r1 r2) prev (m1 ++ m2) rest.

(** The match of [r] that starts at this position, as the number of
    characters it spans. *)
Definition match_at (r : regex) (prev : option ascii) (s : str) : option nat :=
  run r prev s (λ _ rest, Some (length s - length rest)%nat).

(** [re.sub] cuts the subject into the characters it keeps and the
    matches it replaces. *)
Inductive piece :=
| Keep (c : ascii)
| Hit (m : str).

(** Left-to-right scan for successive non-overlapping matches. [skip]
    counts the characters still to pass over because they belong to
    the match found last. A match that spans no character is treated
    as no match (the pattern of the masker has none). *)
Fixpoint scan (r : regex) (skip : nat) (prev : option ascii) (s : str)
    : list piece :=
  match s with
  | [] => []
  | c :: s' =>
      match skip with
      | S skip' => scan r skip' (Some c) s'
      | O =>
          match match_at r prev s with
          | Some (S n) => Hit (take (S n) s) :: scan r n (Some c) s'
          | _ => Keep c :: scan r O (Some c) s'
          end
      end
  end.

Definition finditer (r : regex) (s : str) : list piece := scan r O None s.

Definition is_hit (p : piece) : bool :=
  match p with
  | Hit _ => true
  | Keep _ => false
  end.

(** [re.search(r, s) is not None] *)
Definition search (r : regex) (s : str) : bool :=
  existsb is_hit (finditer r s).

(** Fewest characters a match can span. *)
Fixpoint min_len (r : regex) : nat :=
  match r with
  | WordBoundary => 0
  | Char _ => 1
  | AtLeast n _ => n
  | Seq r1 r2 => min_len r1 + min_len r2
  end.

(** What the scan is to achieve: [cuts r prev s ps] when [ps] cuts
    the subject [s], preceded by [prev], into successive matches of
    [r] and the characters at which no match starts. *)
Inductive cuts (r : regex) : option ascii → str → list piece → Prop :=
| cuts_nil prev :
    cuts r prev [] []
| cuts_keep prev c s ps :
    (∀ m rest, c :: s = m ++ rest → ¬ matches r prev m rest) →
    cuts r (Some c) s ps →
    cuts r prev (c :: s) (Keep c :: ps)
| cuts_hit prev m rest ps :
    m ≠ [] → matches r prev m rest →
    cuts r (last m) rest ps →
    cuts r prev (m ++ rest) (Hit m :: ps).

(** The part of the subject a piece stands for. *)
Definition source (p : piece) : str :=
  match p with
  | Keep c => [c]
  | Hit m => m
  end.

Definition render (repl : str → str) (p : piece) : str :=
  match p with
  | Keep c => [c]
  | Hit m => repl m
  end.

(** [re.sub(r, repl, s)] with a function [repl] of the matched text. *)
Definition sub (r : regex) (repl : str → str) (s : str) : str :=
  mjoin (render repl <$> finditer r s).

End re.

(** ** app/utils/security.py *)

Definition is_upper : ascii → bool := in_range 65 90.
Definition is_lower : ascii → bool := in_range 97 122.
Definition is_digit : ascii → bool := in_range 48 57.
Definition one_of (s : string) (c : ascii) : bool := contains c (lit s).

(** [[A-Za-z0-9._%+-]] *)
Definition cls_local (c : ascii) : bool :=
  is_upper c || is_lower c || is_digit c || one_of "._%+-" c.

(** [[A-Za-z0-9.-]] *)
Definition cls_domain (c : ascii) : bool :=
  is_upper c || is_lower c || is_digit c || one_of ".-" c.

(** [[A-Z|a-z]]: inside a class the bar is an ordinary character. *)
Definition cls_tld (c : ascii) : bool :=
  is_upper c || one_of "|" c || is_lower c.

(** [\b[A-Za-z0-9._%+-]+@[A-Za-z0-9.-]+\.[A-Z|a-z]{2,}\b] *)
Definition email_pattern : re.regex :=
  re.Seq re.WordBoundary
  (re.Seq (re.AtLeast 1 cls_local)
  (re.Seq (re.Char "@")
  (re.Seq (re.AtLeast 1 cls_domain)
  (re.Seq (re.Char ".")
  (re.Seq (re.AtLeast 2 cls_tld)
          re.WordBoundary))))).

(** The pattern as the specification words it: a local part, [@], a
    domain, a dot and two or more letters, with no condition on what
    surrounds the match. *)
Definition is_letter (c : ascii) : bool := is_upper c || is_lower c.

Definition email_pattern_spec : re.regex :=
  re.Seq (re.AtLeast 1 cls_local)
  (re.Seq (re.Char "@")
  (re.Seq (re.AtLeast 1 cls_domain)
  (re.Seq (re.Char ".")
          (re.AtLeast 2 is_letter)))).

(** [m] has the form [local@domain.tld], with a TLD of two or more
    letters, and starts and ends at a word boundary when it stands
    between [prev] and [rest]. *)
Definition is_email (prev : option ascii) (m rest : str) : Prop :=
  ∃ local domain tld : str,
    m = local ++ lit "@" ++ domain ++ lit "." ++ tld
    ∧ local ≠ [] ∧ forallb cls_local local = true
    ∧ domain ≠ [] ∧ forallb cls_domain domain = true
    ∧ (2 ≤ length tld)%nat ∧ forallb is_letter tld = true
    ∧ re.at_boundary prev (m ++ rest) = true
    ∧ re.at_boundary (last m) rest = true.

(** The pattern of the source, spelled out in the same way. *)
Definition matches_email_pattern (prev : option ascii) (m rest : str) : Prop :=
  ∃ local domain tld : str,
    m = local ++ lit "@" ++ domain ++ lit "." ++ tld
    ∧ local ≠ [] ∧ forallb cls_local local = true
    ∧ domain ≠ [] ∧ forallb cls_domain domain = true
    ∧ (2 ≤ length tld)%nat ∧ forallb cls_tld tld = true
    ∧ re.at_boundary prev (m ++ rest) = true
    ∧ re.at_boundary (last m) rest = true.

(** [lambda m: m.group(0)[:3] + mask_char * 5 + m.group(0)[-4:]] *)
Definition mask_email (mask_char : str) (m : str) : str :=
  slice m None (Some 3) ++ mul mask_char 5 ++ slice m (Some (-4)) None.

Definition mask_emails (mask_char : str) (text : str) : str :=
  re.sub email_pattern (mask_email mask_char) text.

(** The condition of the path-masking [if]. *)
Definition path_trigger (text : str) : bool :=
  (30 <? len text) && (contains "/" text || contains "\" text).

Definition mask_path (mask_char : str) (text : str) : str :=
  slice text None (Some 10) ++ mul mask_char 10 ++ slice text (Some (-10)) None.

Definition mask_sensitive_data (text : str) (mask_char : str) : str :=
  if negb (truthy text) then text
  else
    let text := mask_emails mask_char text in
    if path_trigger text then mask_path mask_char text else text.

(** The default [mask_char="*"]. *)
Definition star : str := lit "*".

(** ** Values, exceptions and the handler monad *)

(** A Python [float], as the rational its literal denotes. *)
Abbreviation float := QArith_base.Q.

(** The values that documents and metadata dictionaries hold. *)
Inductive pyval :=
| VStr (s : str)
| VInt (z : Z)
| VFloat (q : float)
| VFloats (v : list float).

Inductive exn :=
| IndexError (msg : str)
| KeyError (key : str)
| TypeError (msg : str)
| ServiceError (msg : str)            (* raised by an SDK or the PDF parser *)
| HTTPException (status_code : Z) (detail : str).

(** [str(e)] *)
Definition exn_str (e : exn) : str :=
  match e with
  | IndexError msg | TypeError msg | ServiceError msg => msg
  | KeyError key => lit "'" ++ key ++ lit "'"
  | HTTPException status_code detail =>
      lit (pretty status_code) ++ lit ": " ++ detail
  end.

(** How a call ends: with a value, with an exception, or never. *)
Inductive outcome (A : Type) :=
| Ok (a : A)
| Raise (e : exn)
| Hang.
Arguments Ok {A} a.
Arguments Raise {A} e.
Arguments Hang {A}.

(** Computations over a state [W]. *)
Definition M (W A : Type) : Type := W → outcome A * W.

Section monad.
Context {W : Type}.

Definition ret {A} (a : A) : M W A := λ w, (Ok a, w).

Definition bind {A B} (m : M W A) (k : A → M W B) : M W B :=
  λ w, match m w with
       | (Ok a, w') => k a w'
       | (Raise e, w') => (Raise e, w')
       | (Hang, w') => (Hang, w')
       end.

Definition raise {A} (e : exn) : M W A := λ w, (Raise e, w).

Definition hang {A} : M W A := λ w, (Hang, w).

(** [try: m  except Exception as e: handler e] *)
Definition try_except {A} (m : M W A) (handler : exn → M W A) : M W A :=
  λ w, match m w with
       | (Raise e, w') => handler e w'
       | r => r
       end.

Definition get : M W W := λ w, (Ok w, w).
Definition put (w : W) : M W unit := λ _, (Ok tt, w).

(** [for x in xs: acc = body acc x] *)
Fixpoint for_each {A X} (xs : list X) (acc : A) (body : A → X → M W A)
    : M W A :=
  match xs with
  | [] => ret acc
  | x :: xs' => bind (body acc x) (λ acc', for_each xs' acc' body)
  end.
End monad.

Notation "'let*' x := m 'in' k" := (bind m (λ x, k))
  (at level 10, x pattern, m at level 100, k at level 200).

(** ** The services behind the handlers *)

Abbreviation bytes := (list Byte.byte).
Abbreviation document := (gmap str pyval).

(** The SDKs and libraries the services call, over a state [Ext] that
    stands for everything outside the process: the search index, the
    blob container, the embedding deployment and the random source of
    [uuid]. *)
Class SDK (Ext : Type) := {
  (** [str(uuid.uuid4())] *)
  uuid4 : M Ext str;
  (** [PdfReader(io.BytesIO(content)).pages], each through [extract_text()] *)
  pdf_page_texts : bytes → exn + list str;
  (** [client.embeddings.create(input=batch, model=deployment)], as the
      list of [item.embedding] *)
  embeddings_create : str → list str → M Ext (list (list float));
  (** [SentenceTransformer.encode(texts).tolist()] *)
  model_encode : list str → M Ext (list (list float));
  (** [search_client.upload_documents], as [len(result)] *)
  upload_documents : list document → M Ext Z;
  (** [search_client.search] with a vector query *)
  vector_search : list float → Z → M Ext (list document);
  (** [search_client.search] with a filter expression *)
  filter_search : str → M Ext (list document);
  (** [search_client.delete_documents] *)
  delete_documents : list document → M Ext unit;
  (** [get_blob_client(container, blob).upload_blob], as the blob's [url] *)
  blob_upload : str → str → bytes → M Ext str;
  (** [get_blob_client(container, blob).delete_blob] *)
  blob_delete : str → str → M Ext unit
}.

Record VectorStore := {
  vs_mock_mode : bool;
  mock_storage : list document
}.

Record AzureBlobClient := {
  blob_mock_mode : bool;
  container_name : str
}.

Record EmbeddingService := {
  use_azure_openai : bool;
  deployment_name : str
}.

(** The module-level singletons of [main.py] and the outside world. *)
Record World (Ext : Type) := {
  pdf_processor : PDFProcessor;
  embedding_service : EmbeddingService;
  vector_store : VectorStore;
  blob_client : AzureBlobClient;
  ext : Ext
}.
Arguments pdf_processor {Ext} w.
Arguments embedding_service {Ext} w.
Arguments vector_store {Ext} w.
Arguments blob_client {Ext} w.
Arguments ext {Ext} w.

Definition set_ext {Ext} (w : World Ext) (x : Ext) : World Ext :=
  {| pdf_processor := pdf_processor w;
     embedding_service := embedding_service w;
     vector_store := vector_store w;
     blob_client := blob_client w;
     ext := x |}.

Definition set_mock_storage {Ext} (w : World Ext) (docs : list document)
    : World Ext :=
  {| pdf_processor := pdf_processor w;
     embedding_service := embedding_service w;
     vector_store := {| vs_mock_mode := vs_mock_mode (vector_store w);
                        mock_storage := docs |};
     blob_client := blob_client w;
     ext := ext w |}.

(** A call into an SDK: it changes the outside world only. *)
Definition call {Ext A} (m : M Ext A) : M (World Ext) A :=
  λ w, let '(r, x) := m (ext w) in (r, set_ext w x).

(** [d[key]] *)
Definition getitem {W : Type} (d : gmap str pyval) (key : string) : M W pyval :=
  match d !! lit key with
  | Some v => ret v
  | None => raise (KeyError (lit key))
  end.

(** [l[0]] *)
Definition first {W A : Type} (l : list A) : M W A :=
  match l with
  | x :: _ => ret x
  | [] => raise (IndexError (lit "list index out of range"))
  end.

(** ** app/services/azure_blob_client.py *)

Section services.
Context {Ext : Type} `{!SDK Ext}.

Local Abbreviation Handler := (M (World Ext)).

Definition upload_blob (filename : str) (content : bytes) : Handler str :=
  try_except
    (let* w := get in
     let self := blob_client w in
     if blob_mock_mode self then
       ret (lit "https://mockaccount.blob.core.windows.net/"
              ++ container_name self ++ lit "/" ++ filename)
     else
       call (blob_upload (container_name self) filename content))
    (λ e, raise e).

Definition delete_blob (filename : str) : Handler unit :=
  try_except
    (let* w := get in
     let self := blob_client w in
     if blob_mock_mode self then ret tt
     else call (blob_delete (container_name self) filename))
    (λ e, raise e).

(** ** app/services/pdf_processor.py, continued *)

Definition extract_text (pdf_content : bytes) (filename : str)
    : Handler (list str) :=
  try_except
    (let* w := get in
     let self := pdf_processor w in
     match pdf_page_texts pdf_content with
     | inl e => raise e
     | inr pages =>
         let full_text :=
           foldl (λ full_text text, full_text ++ (text ++ newline)) [] pages in
         if negb (truthy (strip full_text)) then ret []
         else
           match _create_chunks self full_text with
           | Some chunks => ret chunks
           | None => hang
           end
     end)
    (λ e, raise e).

(** ** app/services/embedding_service.py *)

Definition _generate_azure_embeddings (texts : list str)
    : Handler (list (list float)) :=
  let* w := get in
  let self := embedding_service w in
  let batch_size := 16 in
  for_each (range 0 (len texts) batch_size) []
    (λ embeddings i,
       let batch := slice texts (Some i) (Some (i + batch_size)) in
       let* batch_embeddings := call (embeddings_create (deployment_name self) batch) in
       ret (embeddings ++ batch_embeddings)).

Definition _generate_local_embeddings (texts : list str)
    : Handler (list (list float)) :=
  call (model_encode texts).

Definition generate_embeddings (texts : list str)
    : Handler (list (list float)) :=
  try_except
    (let* w := get in
     let* embeddings :=
       if use_azure_openai (embedding_service w)
       then _generate_azure_embeddings texts
       else _generate_local_embeddings texts in
     (* the log line reads len(embeddings[0]) *)
     let* _ := first embeddings in
     ret embeddings)
    (λ e, raise e).

(** ** app/services/vector_store.py *)

(** [metadata.get(key, default)] *)
Definition dict_get (d : gmap str pyval) (key : string) (default : pyval)
    : pyval :=
  from_option id default (d !! lit key).

Definition store_vectors (embeddings : list (list float)) (texts : list str)
    (metadata : gmap str pyval) : Handler (list str) :=
  try_except
    (let* (documents, doc_ids, _) :=
       for_each (zip embeddings texts) ([], [], 0)
         (λ '(documents, doc_ids, idx) '(embedding, text),
            let* doc_id := call uuid4 in
            let document : document :=
              {[ lit "id" := VStr doc_id;
                 lit "content" := VStr text;
                 lit "embedding" := VFloats embedding;
                 lit "filename" := dict_get metadata "filename" (VStr []);
                 lit "chunk_id" := VInt idx ]} in
            ret (documents ++ [document], doc_ids ++ [doc_id], idx + 1)) in
     let* w := get in
     let self := vector_store w in
     let* _ :=
       if vs_mock_mode self
       then put (set_mock_storage w (mock_storage self ++ documents))
       else (let* _ := call (upload_documents documents) in ret tt) in
     ret doc_ids)
    (λ e, raise e).

(** One entry of a search result. *)
Record hit := {
  hit_text : pyval;
  hit_score : float;
  hit_metadata : gmap str pyval
}.

(** The list comprehension of the mock branch of [search]. *)
Definition mock_hit (doc : document) : Handler hit :=
  let* content := getitem doc "content" in
  let* filename := getitem doc "filename" in
  let* chunk_id := getitem doc "chunk_id" in
  ret {| hit_text := content;
         hit_score := QArith_base.Qmake 95 100;
         hit_metadata := {[ lit "filename" := filename;
                            lit "chunk_id" := chunk_id ]} |}.

(** A hit of the search service carries its score under ["@search.score"]. *)
Definition service_hit (result : document) (results : list hit)
    : Handler (list hit) :=
  let* content := getitem result "content" in
  let* score := getitem result "@search.score" in
  let* filename := getitem result "filename" in
  let* chunk_id := getitem result "chunk_id" in
  match score with
  | VFloat q =>
      ret (results ++ [{| hit_text := content;
                          hit_score := q;
                          hit_metadata := {[ lit "filename" := filename;
                                             lit "chunk_id" := chunk_id ]} |}])
  | _ => raise (TypeError (lit "score"))
  end.

Definition search (query_embedding : list float) (top_k : Z)
    : Handler (list hit) :=
  try_except
    (let* w := get in
     let self := vector_store w in
     if vs_mock_mode self then
       let results := slice (mock_storage self) None (Some top_k) in
       for_each results [] (λ out doc, let* h := mock_hit doc in ret (out ++ [h]))
     else
       let* search_results := call (vector_search query_embedding top_k) in
       for_each search_results [] (λ results result, service_hit result results))
    (λ e, raise e).

(** [doc.get(field) != value] for a [str] value. *)
Definition field_differs (field value : str) (doc : document) : bool :=
  match doc !! field with
  | Some (VStr s) => negb (bool_decide (s = value))
  | _ => true
  end.

Definition delete_by_metadata (field value : str) : Handler Z :=
  try_except
    (let* w := get in
     let self := vector_store w in
     if vs_mock_mode self then
       let initial_count := len (mock_storage self) in
       let kept := List.filter (field_differs field value) (mock_storage self) in
       let* _ := put (set_mock_storage w kept) in
       let deleted := initial_count - len kept in
       ret deleted
     else
       let* results :=
         call (filter_search (field ++ lit " eq '" ++ value ++ lit "'")) in
       let* doc_ids :=
         for_each results []
           (λ doc_ids result,
              let* id := getitem result "id" in
              ret (doc_ids ++ [({[ lit "id" := id ]} : document)])) in
       let* _ := if truthy doc_ids then call (delete_documents doc_ids) else ret tt in
       ret (len doc_ids))
    (λ e, raise e).

(** ** app/main.py *)

Record UploadFile := {
  filename : str;
  content : bytes            (* what [await file.read()] returns *)
}.

Record processed_file := {
  pf_filename : str;
  pf_chunks : Z;
  pf_status : str
}.

(** The body of a 200 response of [/upload]. *)
Record UploadResponse := {
  up_message : str;
  up_files : list processed_file
}.

Definition upload_pdfs (files : list UploadFile) : Handler UploadResponse :=
  try_except
    (let* processed_files :=
       for_each files []
         (λ processed_files file,
            if negb (endswith (filename file) (lit ".pdf")) then
              ret processed_files            (* continue *)
            else
              let content := content file in
              let* blob_url := upload_blob (filename file) content in
              let* text_chunks := extract_text content (filename file) in
              let* embeddings := generate_embeddings text_chunks in
              let* doc_ids :=
                store_vectors embeddings text_chunks
                  {[ lit "filename" := VStr (filename file);
                     lit "blob_url" := VStr blob_url;
                     lit "chunk_count" := VInt (len text_chunks) ]} in
              ret (processed_files ++
                   [{| pf_filename := filename file;
                       pf_chunks := len text_chunks;
                       pf_status := lit "success" |}])) in
     ret {| up_message := lit "Successfully processed "
                            ++ lit (pretty (len processed_files)) ++ lit " files";
            up_files := processed_files |})
    (λ e, raise (HTTPException 500 (lit "Processing failed: " ++ exn_str e))).

Record QueryRequest := {
  query : str;
  top_k : Z
}.

Record QueryResponse := {
  qr_results : list hit;
  qr_query : str
}.

(** [mask_sensitive_data] applied to a value taken from a dictionary:
    a falsy value is returned as it is, any other value that is not a
    [str] is refused by [re.sub]. *)
Definition mask_value (v : pyval) : Handler pyval :=
  match v with
  | VStr s => ret (VStr (mask_sensitive_data s star))
  | VInt 0 | VFloats [] => ret v
  | VFloat q =>
      if QArith_base.Qnum q =? 0 then ret v
      else raise (TypeError (lit "expected string or bytes-like object"))
  | _ => raise (TypeError (lit "expected string or bytes-like object"))
  end.

Definition query_documents (request : QueryRequest) : Handler QueryResponse :=
  try_except
    (let* query_embedding := generate_embeddings [query request] in
     let* q0 := first query_embedding in
     let* results := search q0 (top_k request) in
     let* formatted_results :=
       for_each results []
         (λ out result,
            let* filename :=
              mask_value (dict_get (hit_metadata result) "filename" (VStr [])) in
            ret (out ++
                 [{| hit_text := hit_text result;
                     hit_score := hit_score result;
                     hit_metadata :=
                       {[ lit "filename" := filename;
                          lit "chunk_id" :=
                            dict_get (hit_metadata result) "chunk_id" (VStr []) ]} |}])) in
     ret {| qr_results := formatted_results;
            qr_query := mask_sensitive_data (query request) star |})
    (λ e, raise (HTTPException 500 (lit "Query failed: " ++ exn_str e))).

Record DeleteResponse := {
  del_message : str;
  vectors_deleted : Z
}.

(** [confirm] is the query parameter as sent, [None] when absent; its
    declared default is [False]. *)
Definition delete_document (filename : str) (confirm : option bool)
    : Handler DeleteResponse :=
  let confirm := default false confirm in
  if negb confirm then
    raise (HTTPException 400
      (lit "Destructive operation requires explicit confirmation. Set confirm=true"))
  else
    try_except
      (let* deleted_count := delete_by_metadata (lit "filename") filename in
       let* _ := delete_blob filename in
       ret {| del_message := lit "Successfully deleted " ++ filename;
              vectors_deleted := deleted_count |})
      (λ e, raise (HTTPException 500 (lit "Deletion failed: " ++ exn_str e))).

End services.

(** ** A stand-in for the SDKs

    For running the handlers on concrete inputs: the outside world is
    the list of the SDK calls made so far, latest last; identifiers are
    numbered by the length of that list; the text of a PDF is its
    bytes read as one page of characters; an embedding is the length
    of its text; the search index holds one document, whatever the
    query. *)

Definition logged {A} (name : string) (a : A) : M (list string) A :=
  λ calls, (Ok a, calls ++ [name]).

Definition indexed_document : document :=
  {[ lit "id" := VStr (lit "doc-0");
     lit "content" := VStr (lit "indexed text");
     lit "@search.score" := VFloat (QArith_base.Qmake 1 2);
     lit "filename" := VStr (lit "indexed.pdf");
     lit "chunk_id" := VInt 0 ]}.

(** An embedding that only depends on the length of the text. *)
Definition length_embedding (text : str) : list float :=
  [QArith_base.Qmake (len text) 1].

#[export] Instance logging_sdk : SDK (list string) := {|
  uuid4 := λ calls,
    (Ok (lit "id-" ++ lit (pretty (len calls))), calls ++ ["uuid4"%string]);
  pdf_page_texts := λ content, inr [ascii_of_byte <$> content];
  embeddings_create := λ _ batch,
    logged "embeddings_create" (length_embedding <$> batch);
  model_encode := λ texts,
    logged "model_encode" (length_embedding <$> texts);
  upload_documents := λ documents,
    logged "upload_documents" (len documents);
  vector_search := λ _ _, logged "vector_search" [indexed_document];
  filter_search := λ _, logged "filter_search" [indexed_document];
  delete_documents := λ _, logged "delete_documents" tt;
  blob_upload := λ container filename _,
    logged "blob_upload"
      (lit "https://account.example/" ++ container ++ lit "/" ++ filename);
  blob_delete := λ _ _, logged "blob_delete" tt
|}.

(** The process as [main.py] starts it. *)
Definition start (mock azure_openai : bool) : World (list string) :=
  {| pdf_processor := PDFProcessor_init;
     embedding_service := {| use_azure_openai := azure_openai;
                             deployment_name := lit "text-embedding-ada-002" |};
     vector_store := {| vs_mock_mode := mock; mock_storage := [] |};
     blob_client := {| blob_mock_mode := mock;
                       container_name := lit "pdf-documents" |};
     ext := [] |}.

(** ** What the properties speak of *)

#[export] Instance float_eq_dec : EqDecision float.
Proof. solve_decision. Defined.

#[export] Instance pyval_eq_dec : EqDecision pyval.
Proof. solve_decision. Defined.

(** A text without extractable characters: nothing but white space. *)
Definition blank (text : str) : Prop := forallb isspace text = true.

(** A document as [store_vectors] writes it has the keys that the mock
    branch of [search] reads. *)
Definition is_record (doc : document) : Prop :=
  is_Some (doc !! lit "content") ∧ is_Some (doc !! lit "filename")
  ∧ is_Some (doc !! lit "chunk_id").

(** The hit that the mock branch of [search] builds from a document. *)
Definition hit_of (doc : document) (h : hit) : Prop :=
  doc !! lit "content" = Some (hit_text h)
  ∧ hit_score h = QArith_base.Qmake 95 100
  ∧ hit_metadata h !! lit "filename" = doc !! lit "filename"
  ∧ hit_metadata h !! lit "chunk_id" = doc !! lit "chunk_id"
  ∧ dom (hit_metadata h) = {[ lit "filename"; lit "chunk_id" ]}.

(** Gluing chunks back together: the first chunk, then every later
    chunk without its first [overlap] characters,
    [chunks[0] + "".join(c[overlap:] for c in chunks[1:])]. *)
Definition rebuild (overlap : Z) (chunks : list str) : str :=
  match chunks with
  | [] => []
  | chunk :: chunks => chunk ++ mjoin ((λ c, slice c (Some overlap) None) <$> chunks)
  end.

(** [full_text] as [extract_text] builds it from the texts of the pages. *)
Definition join_pages (pages : list str) : str :=
  foldl (λ full_text text, full_text ++ (text ++ newline)) [] pages.

(** The document that [store_vectors] builds at index [idx] for an
    identifier, an embedding and a text. *)
Definition stored_document (metadata : gmap str pyval) (idx : nat)
    (entry : str * (list float * str)) : document :=
  {[ lit "id" := VStr entry.1;
     lit "content" := VStr entry.2.2;
     lit "embedding" := VFloats entry.2.1;
     lit "filename" := dict_get metadata "filename" (VStr []);
     lit "chunk_id" := VInt (Z.of_nat idx) ]}.

(** The random source never fails. *)
Definition uuid_total `{!SDK Ext} : Prop :=
  ∀ x : Ext, ∃ doc_id x', uuid4 x = (Ok doc_id, x').

(** An embedding deployment that answers every batch with [f] of each
    of its texts. *)
Definition embeds_with `{!SDK Ext} (deployment : str) (f : str → list float) : Prop :=
  ∀ (batch : list str) (x : Ext),
    ∃ x', embeddings_create deployment batch x = (Ok (f <$> batch), x').

(** The entry that [query_documents] returns for a stored document: the
    hit of the mock search with its filename masked. *)
Definition masked_hit_of (doc : document) (h : hit) : Prop :=
  doc !! lit "content" = Some (hit_text h)
  ∧ hit_score h = QArith_base.Qmake 95 100
  ∧ (∃ name, doc !! lit "filename" = Some (VStr name)
             ∧ hit_metadata h !! lit "filename"
               = Some (VStr (mask_sensitive_data name star)))
  ∧ hit_metadata h !! lit "chunk_id" = doc !! lit "chunk_id".

(** The metadata that [upload_pdfs] passes to [store_vectors]. *)
Definition upload_metadata (name blob_url : str) (chunk_count : Z) : gmap str pyval :=
  {[ lit "filename" := VStr name;
     lit "blob_url" := VStr blob_url;
     lit "chunk_count" := VInt chunk_count ]}.

(** * Properties *)

(** ** Slices *)

Lemma len_nonneg {A} (l : list A) : 0 ≤ len l.
Proof. unfold len. lia. Qed.

Lemma len_app {A} (l1 l2 : list A) : len (l1 ++ l2) = len l1 + len l2.
Proof. unfold len. rewrite length_app. lia. Qed.

(** With both bounds non-negative a slice is a [take] of a [drop]. *)
Lemma slice_nonneg {A} (l : list A) (a b : Z) :
  0 ≤ a → 0 ≤ b →
  slice l (Some a) (Some b) = take (Z.to_nat (b - a)) (drop (Z.to_nat a) l).
Proof.
  intros Ha Hb. unfold slice, slice_bound, len. cbn [from_option].
  destruct (Z.ltb_spec a 0), (Z.ltb_spec b 0); try lia.
  destruct (Z.le_gt_cases a (Z.of_nat (length l))) as [Hal | Hal].
  - rewrite (Z.min_l a) by lia.
    destruct (Z.le_gt_cases b (Z.of_nat (length l))) as [Hbl | Hbl].
    + by rewrite (Z.min_l b) by lia.
    + rewrite (Z.min_r b) by lia.
      rewrite !take_ge; [done | rewrite length_drop; lia | rewrite length_drop; lia].
  - rewrite !drop_ge by lia. by rewrite !take_nil.
Qed.

Lemma len_slice {A} (l : list A) (a b : Z) :
  0 ≤ a → 0 ≤ b →
  len (slice l (Some a) (Some b)) = Z.max 0 (Z.min b (len l) - Z.min a (len l)).
Proof.
  intros Ha Hb. rewrite slice_nonneg by done. unfold len.
  rewrite length_take, length_drop. lia.
Qed.

(** [l[:b]] for a non-negative [b]. *)
Lemma slice_prefix {A} (l : list A) (b : Z) :
  0 ≤ b → slice l None (Some b) = take (Z.to_nat b) l.
Proof.
  intros Hb. unfold slice, slice_bound, len. cbn [from_option].
  destruct (Z.ltb_spec b 0); [lia |]. rewrite Z.sub_0_r.
  change (Z.to_nat 0) with 0%nat. rewrite drop_0.
  destruct (Z.le_gt_cases b (Z.of_nat (length l))).
  - by rewrite Z.min_l by lia.
  - rewrite Z.min_r by lia.
    rewrite (take_ge l (Z.to_nat b)) by lia. by rewrite take_ge by lia.
Qed.

(** [l[-k:]] on a list of at least [k] elements. *)
Lemma slice_suffix {A} (l : list A) (k : Z) :
  0 < k ≤ len l →
  slice l (Some (- k)) None = drop (length l - Z.to_nat k) l.
Proof.
  intros Hk. unfold slice, slice_bound, len in *. cbn [from_option].
  destruct (Z.ltb_spec (- k) 0); [| lia].
  rewrite Z.max_l by lia.
  replace (Z.to_nat (- k + Z.of_nat (length l))) with (length l - Z.to_nat k)%nat by lia.
  rewrite take_ge; [done | rewrite length_drop; lia].
Qed.

(** [l[a:]] for a non-negative [a]. *)
Lemma slice_from {A} (l : list A) (a : Z) :
  0 ≤ a → slice l (Some a) None = drop (Z.to_nat a) l.
Proof.
  intros Ha. unfold slice, slice_bound, len. cbn [from_option].
  destruct (Z.ltb_spec a 0); [lia |].
  destruct (Z.le_gt_cases a (Z.of_nat (length l))).
  - rewrite Z.min_l by lia. rewrite take_ge; [done | rewrite length_drop; lia].
  - rewrite Z.min_r by lia. rewrite Z.sub_diag.
    rewrite !drop_ge by lia. apply take_nil.
Qed.

Lemma len_mul_char {A} (s : list A) (n : Z) :
  len s = 1 → 0 ≤ n → len (mul s n) = n.
Proof.
  intros Hs Hn. unfold mul, len in *.
  destruct s as [| c [| ? ?]]; simpl in Hs; try lia.
  replace (mjoin (replicate (Z.to_nat n) [c])) with (replicate (Z.to_nat n) c).
  - rewrite length_replicate. lia.
  - induction (Z.to_nat n) as [| k IH]; simpl; [done | by rewrite IH].
Qed.

(** ** The chunker *)

Section chunker.
Variable self : PDFProcessor.
Variable text : str.

(** The recorded loop and the loop of the source build the same chunks. *)
Lemma spans_chunks fuel start spans :
  create_chunks_loop fuel self text start spans.*2
  = fmap (M := option) (fmap snd) (create_chunks_spans fuel self text start spans).
Proof.
  revert start spans. induction fuel as [| fuel IH]; intros start spans; simpl; [done |].
  destruct (start <? len text); [| done].
  destruct (truthy _); [| apply IH].
  rewrite <- IH. by rewrite fmap_app.
Qed.

(** More fuel does not change a finished run. *)
Lemma loop_fuel_mono fuel fuel' start chunks r :
  (fuel ≤ fuel')%nat →
  create_chunks_loop fuel self text start chunks = Some r →
  create_chunks_loop fuel' self text start chunks = Some r.
Proof.
  revert fuel' start chunks.
  induction fuel as [| fuel IH]; intros fuel' start chunks Hle; simpl; [done |].
  destruct fuel' as [| fuel']; [lia |]. simpl.
  destruct (start <? len text); [| done].
  apply IH. lia.
Qed.

Lemma filter_nonblank_cons (c : str) (cs : list str) :
  filter (λ c, nonblank c = true) (c :: cs)
  = (if truthy (strip c) then [c] else []) ++ filter (λ c, nonblank c = true) cs.
Proof.
  rewrite filter_cons. case_decide as Hc; unfold nonblank in Hc.
  - by rewrite Hc.
  - by destruct (truthy (strip c)).
Qed.

(** When [n] more windows begin below the end of the text, the loop
    runs [n] more times and appends those of them that are not blank. *)
Lemma loop_windows (n : nat) : ∀ fuel start chunks,
  (n < fuel)%nat →
  len text ≤ start + Z.of_nat n * (chunk_size self - chunk_overlap self) →
  (∀ k, 0 ≤ k < Z.of_nat n →
        start + k * (chunk_size self - chunk_overlap self) < len text) →
  create_chunks_loop fuel self text start chunks
  = Some (chunks ++ filter (λ c, nonblank c = true)
            (window self text
               <$> ((λ k, start + k * (chunk_size self - chunk_overlap self))
                      <$> seqZ 0 (Z.of_nat n)))).
Proof.
  induction n as [| n IH]; intros fuel start chunks Hfuel Hend Hin;
    (destruct fuel as [| fuel]; [lia |]); cbn [create_chunks_loop].
  - destruct (Z.ltb_spec start (len text)); [lia |].
    rewrite seqZ_nil by lia. by rewrite app_nil_r.
  - specialize (Hin 0) as H0.
    destruct (Z.ltb_spec start (len text)); [| lia].
    rewrite Nat2Z.inj_succ in Hend.
    rewrite (IH fuel);
      [| lia | lia | intros k Hk; specialize (Hin (k + 1) ltac:(lia)); lia].
    f_equal. rewrite (seqZ_cons 0 (Z.of_nat (S n))) by lia.
    replace (Z.pred (Z.of_nat (S n))) with (Z.of_nat n) by lia.
    change (Z.succ 0) with (1 + 0). rewrite <- (fmap_add_seqZ 1 0).
    rewrite !fmap_cons, filter_nonblank_cons.
    replace (start + 0 * (chunk_size self - chunk_overlap self)) with start by lia.
    unfold window at 2 3.
    rewrite app_assoc. f_equal.
    + by destruct (truthy _); rewrite ?app_nil_r.
    + f_equal. rewrite <- !list_fmap_compose.
      apply list_fmap_ext. intros _ k _. simpl. f_equal. lia.
Qed.

Lemma filter_span_cons (start : Z) (c : str) (spans : list (Z * str)) :
  filter (λ span : Z * str, nonblank span.2 = true) ((start, c) :: spans)
  = (if truthy (strip c) then [(start, c)] else [])
    ++ filter (λ span : Z * str, nonblank span.2 = true) spans.
Proof.
  rewrite filter_cons. case_decide as Hc; unfold nonblank in Hc; simpl in Hc.
  - by rewrite Hc.
  - by destruct (truthy (strip c)).
Qed.

(** The recorded loop, in the same way. *)
Lemma spans_windows (n : nat) : ∀ fuel start spans,
  (n < fuel)%nat →
  len text ≤ start + Z.of_nat n * (chunk_size self - chunk_overlap self) →
  (∀ k, 0 ≤ k < Z.of_nat n →
        start + k * (chunk_size self - chunk_overlap self) < len text) →
  create_chunks_spans fuel self text start spans
  = Some (spans ++ filter (λ span, nonblank span.2 = true)
            ((λ start, (start, window self text start))
               <$> ((λ k, start + k * (chunk_size self - chunk_overlap self))
                      <$> seqZ 0 (Z.of_nat n)))).
Proof.
  induction n as [| n IH]; intros fuel start spans Hfuel Hend Hin;
    (destruct fuel as [| fuel]; [lia |]); cbn [create_chunks_spans].
  - destruct (Z.ltb_spec start (len text)); [lia |].
    rewrite seqZ_nil by lia. by rewrite app_nil_r.
  - specialize (Hin 0) as H0.
    destruct (Z.ltb_spec start (len text)); [| lia].
    rewrite Nat2Z.inj_succ in Hend.
    rewrite (IH fuel);
      [| lia | lia | intros k Hk; specialize (Hin (k + 1) ltac:(lia)); lia].
    f_equal. rewrite (seqZ_cons 0 (Z.of_nat (S n))) by lia.
    replace (Z.pred (Z.of_nat (S n))) with (Z.of_nat n) by lia.
    change (Z.succ 0) with (1 + 0). rewrite <- (fmap_add_seqZ 1 0).
    rewrite !fmap_cons, filter_span_cons.
    replace (start + 0 * (chunk_size self - chunk_overlap self)) with start by lia.
    unfold window at 2 3.
    rewrite app_assoc. f_equal.
    + by destruct (truthy _); rewrite ?app_nil_r.
    + f_equal. rewrite <- !list_fmap_compose.
      apply list_fmap_ext. intros _ k _. simpl. f_equal; [lia | f_equal; lia].
Qed.

(** The number of windows: the starts [0, step, 2 * step, ...] below
    the length of the text. *)
Lemma window_count (Hstep : 0 < chunk_size self - chunk_overlap self) :
  let n := (len text + (chunk_size self - chunk_overlap self) - 1)
             `div` (chunk_size self - chunk_overlap self) in
  0 ≤ n ≤ len text
  ∧ len text ≤ n * (chunk_size self - chunk_overlap self)
  ∧ ∀ k, 0 ≤ k < n → k * (chunk_size self - chunk_overlap self) < len text.
Proof.
  intros n. pose proof (len_nonneg text) as HL.
  pose proof (Z.div_mod (len text + (chunk_size self - chunk_overlap self) - 1)
                (chunk_size self - chunk_overlap self) ltac:(lia)) as Hdm.
  pose proof (Z.mod_pos_bound (len text + (chunk_size self - chunk_overlap self) - 1)
                (chunk_size self - chunk_overlap self) Hstep) as Hm.
  fold n in Hdm. repeat split; try nia.
Qed.

(** With [chunk_overlap < chunk_size] the loop ends, within
    [len text + 1] tests of its condition, and returns the non-blank
    windows in order. *)
Lemma create_chunks_windows fuel :
  chunk_overlap self < chunk_size self →
  (length text < fuel)%nat →
  create_chunks_loop fuel self text 0 [] = Some (windows_spec self text).
Proof.
  intros Hlt Hfuel.
  destruct (window_count ltac:(lia)) as ([Hn0 HnL] & Hend & Hin).
  unfold windows_spec, window_starts, range.
  replace (len text - 0 + (chunk_size self - chunk_overlap self) - 1)
    with (len text + (chunk_size self - chunk_overlap self) - 1) by lia.
  set (n := (len text + (chunk_size self - chunk_overlap self) - 1)
              `div` (chunk_size self - chunk_overlap self)) in *.
  clearbody n.
  rewrite (loop_windows (Z.to_nat n)).
  - by rewrite Z2Nat.id by lia.
  - unfold len in *. lia.
  - rewrite Z2Nat.id by lia. lia.
  - intros k Hk. apply Hin. lia.
Qed.

Lemma create_spans_windows fuel :
  chunk_overlap self < chunk_size self →
  (length text < fuel)%nat →
  create_chunks_spans fuel self text 0 [] = Some (spans_spec self text).
Proof.
  intros Hlt Hfuel.
  destruct (window_count ltac:(lia)) as ([Hn0 HnL] & Hend & Hin).
  unfold spans_spec, window_starts, range.
  replace (len text - 0 + (chunk_size self - chunk_overlap self) - 1)
    with (len text + (chunk_size self - chunk_overlap self) - 1) by lia.
  set (n := (len text + (chunk_size self - chunk_overlap self) - 1)
              `div` (chunk_size self - chunk_overlap self)) in *.
  clearbody n.
  rewrite (spans_windows (Z.to_nat n)).
  - by rewrite Z2Nat.id by lia.
  - unfold len in *. lia.
  - rewrite Z2Nat.id by lia. lia.
  - intros k Hk. apply Hin. lia.
Qed.

(** With [chunk_size <= chunk_overlap] the loop never leaves a
    non-empty text: [start] does not grow. *)
Lemma loop_stuck fuel : ∀ start chunks,
  chunk_size self ≤ chunk_overlap self →
  text ≠ [] → start ≤ 0 →
  create_chunks_loop fuel self text start chunks = None.
Proof.
  induction fuel as [| fuel IH]; intros start chunks Hge Hne Hstart; simpl; [done |].
  assert (0 < len text) by (unfold len; destruct text; [done | simpl; lia]).
  destruct (Z.ltb_spec start (len text)); [| lia].
  apply IH; [done | done | lia].
Qed.

(** A run that ends with any amount of fuel ends with the fuel that
    [_create_chunks] provides. *)
Lemma fuel_adequate fuel r :
  create_chunks_loop fuel self text 0 [] = Some r →
  _create_chunks self text = Some r.
Proof.
  intros Hrun. unfold _create_chunks.
  destruct (Z.lt_ge_cases (chunk_overlap self) (chunk_size self)) as [Hlt | Hge].
  - destruct (decide (length text < fuel)%nat) as [Hf | Hf].
    + rewrite create_chunks_windows in Hrun by done.
      rewrite create_chunks_windows by (done || lia). done.
    + by apply (loop_fuel_mono fuel (S (length text))) in Hrun; [| lia].
  - destruct text as [| c t] eqn:Htext.
    + destruct fuel; [done |]. simpl in *. done.
    + rewrite <- Htext in *. rewrite loop_stuck in Hrun; [done | lia | by subst | lia].
Qed.
End chunker.

(** ** Scenario A and the shape of the produced sequence *)

(** C1, as amended: for a text of exactly 2500 characters, with
    [chunk_size = 1000] and [chunk_overlap = 200] and no blank window,
    the chunker returns exactly 4 chunks, cut at the start offsets
    0, 800, 1600 and 2400, of lengths 1000, 1000, 900 and 100. *)
Theorem scenario_A_chunks (text : str) :
  len text = 2500 →
  Forall (λ s, nonblank (window PDFProcessor_init text s) = true)
         [0; 800; 1600; 2400] →
  let chunks := [slice text (Some 0) (Some 1000);
                 slice text (Some 800) (Some 1800);
                 slice text (Some 1600) (Some 2600);
                 slice text (Some 2400) (Some 3400)] in
  _create_chunks PDFProcessor_init text = Some chunks
  ∧ create_chunks_spans (S (length text)) PDFProcessor_init text 0 []
    = Some (zip [0; 800; 1600; 2400] chunks)
  ∧ len <$> chunks = [1000; 1000; 900; 100].
Proof.
  intros Hlen Hwin chunks.
  assert (window_starts PDFProcessor_init text = [0; 800; 1600; 2400]) as Hstarts.
  { unfold window_starts. rewrite Hlen. vm_compute. reflexivity. }
  rewrite !Forall_cons in Hwin. destruct Hwin as (H0 & H1 & H2 & H3 & _).
  split; [| split].
  - unfold _create_chunks.
    rewrite create_chunks_windows by (simpl; lia).
    unfold windows_spec. rewrite Hstarts.
    rewrite !fmap_cons, !filter_cons, fmap_nil, filter_nil.
    repeat case_decide; done.
  - rewrite create_spans_windows by (simpl; lia).
    unfold spans_spec. rewrite Hstarts.
    rewrite !fmap_cons, !filter_cons, fmap_nil, filter_nil.
    repeat case_decide; done.
  - subst chunks. rewrite !fmap_cons, fmap_nil.
    rewrite !len_slice, Hlen by lia. reflexivity.
Qed.

Lemma scenario_A_chunks_witness :
  let text := replicate 2500 "a"%char in
  let chunks := [slice text (Some 0) (Some 1000); slice text (Some 800) (Some 1800);
                 slice text (Some 1600) (Some 2600); slice text (Some 2400) (Some 3400)] in
  _create_chunks PDFProcessor_init text = Some chunks
  ∧ create_chunks_spans (S (length text)) PDFProcessor_init text 0 []
    = Some (zip [0; 800; 1600; 2400] chunks)
  ∧ len <$> chunks = [1000; 1000; 900; 100].
Proof.
  apply (scenario_A_chunks (replicate 2500 "a"%char)).
  - vm_compute. reflexivity.
  - repeat constructor; vm_compute; reflexivity.
Defined.

(** C1 as stated fails: on the text of 2500 letters [a] the lengths are
    not 1000, 1000, 1000, 300. *)
Lemma scenario_A_lengths_counterexample :
  let text := replicate 2500 "a"%char in
  len text = 2500
  ∧ Forall (λ s, nonblank (window PDFProcessor_init text s) = true)
           [0; 800; 1600; 2400]
  ∧ ¬ ∃ chunks, _create_chunks PDFProcessor_init text = Some chunks
                ∧ len <$> chunks = [1000; 1000; 1000; 300].
Proof.
  split; [vm_compute; reflexivity |].
  split; [repeat constructor; vm_compute; reflexivity |].
  intros (chunks & Hrun & Hlens).
  assert (fmap (M := option) (fmap len)
            (_create_chunks PDFProcessor_init (replicate 2500 "a"%char))
          = Some [1000; 1000; 900; 100]) as Hcode by (vm_compute; reflexivity).
  rewrite Hrun in Hcode. simpl in Hcode. congruence.
Qed.

Lemma nonblank_nonempty (c : str) : nonblank c = true → 0 < len c.
Proof. destruct c; [done | unfold len; simpl; lia]. Qed.

Lemma lookup_window_starts (self : PDFProcessor) (text : str) (i : nat) (s : Z) :
  chunk_overlap self < chunk_size self →
  window_starts self text !! i = Some s
  ↔ s = Z.of_nat i * (chunk_size self - chunk_overlap self) ∧ s < len text.
Proof.
  intros Hlt. unfold window_starts, range.
  replace (len text - 0 + (chunk_size self - chunk_overlap self) - 1)
    with (len text + (chunk_size self - chunk_overlap self) - 1) by lia.
  destruct (window_count self text ltac:(lia)) as ([Hn0 HnL] & Hend & Hin).
  set (n := (len text + (chunk_size self - chunk_overlap self) - 1)
              `div` (chunk_size self - chunk_overlap self)) in *.
  clearbody n. rewrite list_lookup_fmap, fmap_Some.
  setoid_rewrite lookup_seqZ. split.
  - intros (k & [-> Hk] & ->). split; [lia |]. specialize (Hin (Z.of_nat i)). lia.
  - intros [-> Hs]. exists (Z.of_nat i). split; [| lia]. split; [lia |].
    destruct (Z.lt_ge_cases (Z.of_nat i) n); [done | nia].
Qed.

(** Two windows cut one step apart share the text from the later start
    to the end of the earlier window. *)
Lemma shared_consecutive (self : PDFProcessor) (text : str) (s : Z) :
  0 ≤ chunk_overlap self < chunk_size self →
  0 ≤ s → s + (chunk_size self - chunk_overlap self) ≤ len text →
  let s' := s + (chunk_size self - chunk_overlap self) in
  shared (s, window self text s) (s', window self text s')
  = Z.min (chunk_overlap self) (len text - s').
Proof.
  intros HO Hs Hs' s'. unfold shared, window. simpl.
  rewrite !len_slice by lia. subst s'. lia.
Qed.

Lemma overlap_text (self : PDFProcessor) (text : str) (s : Z) :
  0 ≤ chunk_overlap self < chunk_size self →
  0 ≤ s → s + chunk_size self ≤ len text →
  let s' := s + (chunk_size self - chunk_overlap self) in
  let common := slice text (Some s') (Some (s + chunk_size self)) in
  slice (window self text s) (Some (chunk_size self - chunk_overlap self)) None = common
  ∧ slice (window self text s') None (Some (chunk_overlap self)) = common
  ∧ len common = chunk_overlap self.
Proof.
  intros HO Hs HsC s' common. subst common s'. unfold window.
  rewrite slice_from, slice_prefix, !slice_nonneg by lia.
  repeat split.
  - replace (Z.to_nat (s + chunk_size self - s))
      with (Z.to_nat (chunk_size self - chunk_overlap self)
            + Z.to_nat (chunk_overlap self))%nat by lia.
    rewrite <- take_drop_commute, drop_drop.
    f_equal; [lia | f_equal; lia].
  - rewrite take_take. f_equal; lia.
  - unfold len in *. rewrite length_take, length_drop. lia.
Qed.

(** C2, as amended: for every text and every configuration with
    [0 <= chunk_overlap < chunk_size], the chunker takes the windows
    [[start, start + chunk_size)] for [start = 0, step, 2 * step, ...]
    below the length of the text, where [step = chunk_size -
    chunk_overlap], and returns, in order, those that are not blank
    after trimming (the recorded loop returns them with their starts);
    every produced chunk has at most [chunk_size]
    characters; two windows cut one step apart share exactly
    [min (chunk_overlap, len text - later start)] characters, which
    is [chunk_overlap] whenever the earlier window has its full length,
    and then the last [chunk_overlap] characters of the earlier window
    are the first [chunk_overlap] characters of the later one. *)
Theorem chunks_are_windows (self : PDFProcessor) (text : str) :
  0 ≤ chunk_overlap self < chunk_size self →
  let step := chunk_size self - chunk_overlap self in
  _create_chunks self text = Some (windows_spec self text)
  ∧ create_chunks_spans (S (length text)) self text 0 [] = Some (spans_spec self text)
  ∧ (∀ (i : nat) s, window_starts self text !! i = Some s
                    ↔ s = Z.of_nat i * step ∧ s < len text)
  ∧ Forall (λ chunk, 0 < len chunk ≤ chunk_size self) (windows_spec self text)
  ∧ (∀ s, 0 ≤ s → s + step ≤ len text →
       shared (s, window self text s) (s + step, window self text (s + step))
       = Z.min (chunk_overlap self) (len text - (s + step)))
  ∧ (∀ s, 0 ≤ s → s + chunk_size self ≤ len text →
       let common := slice text (Some (s + step)) (Some (s + chunk_size self)) in
       shared (s, window self text s) (s + step, window self text (s + step))
       = chunk_overlap self
       ∧ slice (window self text s) (Some step) None = common
       ∧ slice (window self text (s + step)) None (Some (chunk_overlap self)) = common
       ∧ len common = chunk_overlap self).
Proof.
  intros HO step. split; [| split; [| split; [| split; [| split]]]].
  - unfold _create_chunks. apply create_chunks_windows; lia.
  - apply create_spans_windows; lia.
  - intros i s. apply lookup_window_starts. lia.
  - apply Forall_forall. intros chunk Hin.
    apply list_elem_of_filter in Hin as [Hnb Hin].
    apply list_elem_of_fmap in Hin as (s & -> & Hs).
    apply list_elem_of_lookup in Hs as [i Hs].
    apply lookup_window_starts in Hs as [-> Hs]; [| lia].
    split; [by apply nonblank_nonempty |].
    unfold window. rewrite len_slice by (subst step; nia). lia.
  - intros s Hs Hs'. by apply shared_consecutive.
  - intros s Hs HsC common. split.
    + rewrite shared_consecutive by (subst step; lia). subst step. lia.
    + by apply overlap_text.
Qed.

Lemma chunks_are_windows_witness :
  let self := {| chunk_size := 4; chunk_overlap := 1 |} in
  let text := lit "abcdefghij" in
  _create_chunks self text = Some (windows_spec self text)
  ∧ windows_spec self text = [lit "abcd"; lit "defg"; lit "ghij"; lit "j"]
  ∧ shared (0, window self text 0) (3, window self text 3) = 1.
Proof.
  pose proof (chunks_are_windows {| chunk_size := 4; chunk_overlap := 1 |}
                (lit "abcdefghij") ltac:(simpl; lia)) as (Hrun & _ & _ & _ & _ & Hfull).
  split; [exact Hrun |]. split; [vm_compute; reflexivity |].
  apply (Hfull 0); [lia | vm_compute; discriminate].
Defined.

(** C2 as stated fails in its last part. With [chunk_size = 4] and
    [chunk_overlap = 1] the window at offset 3 of the first text is
    blank and is dropped, so that the first two produced chunks, cut at
    offsets 0 and 6, share no character; with [chunk_size = 10] and
    [chunk_overlap = 8] the chunks cut at offsets 4 and 6 of a text of
    13 characters share 7 characters, and neither is the final one. *)
Lemma adjacent_overlap_counterexample :
  (let self := {| chunk_size := 4; chunk_overlap := 1 |} in
   let spans := [(0, lit "a   "); (6, lit " cde"); (9, lit "efgh"); (12, lit "hi")] in
   create_chunks_spans 15 self (lit "a      cdefghi") 0 [] = Some spans
   ∧ _create_chunks self (lit "a      cdefghi") = Some spans.*2
   ∧ ¬ adjacent_share_overlap self spans)
  ∧
  (let self := {| chunk_size := 10; chunk_overlap := 8 |} in
   let text := replicate 13 "a"%char in
   let spans := (λ s, (s, window self text s)) <$> [0; 2; 4; 6; 8; 10; 12] in
   create_chunks_spans 14 self text 0 [] = Some spans
   ∧ _create_chunks self text = Some spans.*2
   ∧ ¬ adjacent_share_overlap self spans).
Proof.
  split; intros self; [intros spans | intros text spans];
    (split; [vm_compute; reflexivity |]);
    (split; [vm_compute; reflexivity |]).
  - intros Hclaim. specialize (Hclaim 0%nat _ _ eq_refl eq_refl).
    vm_compute in Hclaim. specialize (Hclaim ltac:(lia)). discriminate.
  - intros Hclaim. specialize (Hclaim 2%nat _ _ eq_refl eq_refl).
    vm_compute in Hclaim. specialize (Hclaim ltac:(lia)). discriminate.
Qed.

(** C3: with [chunk_overlap < chunk_size] the chunking loop ends for
    every text, within [len text + 1] tests of its condition; with
    [chunk_size <= chunk_overlap] the step is zero or negative and on
    every non-empty text the loop never ends, whatever the fuel. *)
Theorem chunk_loop_termination (self : PDFProcessor) (text : str) :
  (chunk_overlap self < chunk_size self →
     ∃ chunks, _create_chunks self text = Some chunks
               ∧ ∀ fuel, (length text < fuel)%nat →
                         create_chunks_loop fuel self text 0 [] = Some chunks)
  ∧ (chunk_size self ≤ chunk_overlap self → text ≠ [] →
     _create_chunks self text = None
     ∧ ∀ fuel, create_chunks_loop fuel self text 0 [] = None).
Proof.
  split.
  - intros Hlt. exists (windows_spec self text). split.
    + unfold _create_chunks. apply create_chunks_windows; lia.
    + intros fuel Hfuel. by apply create_chunks_windows.
  - intros Hge Hne. split.
    + unfold _create_chunks. by apply loop_stuck.
    + intros fuel. by apply loop_stuck.
Qed.

Lemma chunk_loop_termination_witness :
  (∃ chunks, _create_chunks PDFProcessor_init (lit "some text") = Some chunks
             ∧ ∀ fuel, (length (lit "some text") < fuel)%nat →
                 create_chunks_loop fuel PDFProcessor_init (lit "some text") 0 []
                 = Some chunks)
  ∧ (_create_chunks {| chunk_size := 200; chunk_overlap := 200 |} (lit "some text") = None
     ∧ ∀ fuel, create_chunks_loop fuel {| chunk_size := 200; chunk_overlap := 200 |}
                 (lit "some text") 0 [] = None).
Proof.
  split.
  - apply (chunk_loop_termination PDFProcessor_init (lit "some text")).
    simpl. lia.
  - apply (chunk_loop_termination {| chunk_size := 200; chunk_overlap := 200 |}
             (lit "some text")).
    + simpl. lia.
    + discriminate.
Defined.

(** ** The matcher against the meaning of patterns *)

Module re_facts.
Import re.

Lemma last_before_app prev (m1 m2 : str) :
  last_before prev (m1 ++ m2) = last_before (last_before prev m1) m2.
Proof.
  unfold last_before. rewrite last_app.
  destruct (last m2); [done |]. by destruct (last m1).
Qed.

Lemma last_before_cons prev c (m : str) :
  last_before prev (c :: m) = last_before (Some c) m.
Proof. apply (last_before_app prev [c] m). Qed.

(** What [greedy] returns, the continuation returned for some run of
    at least [n] characters of the class. *)
Lemma greedy_sound {R} cls (k : option ascii → str → option R) x :
  ∀ s n prev,
    greedy cls n prev s k = Some x →
    ∃ m rest, s = m ++ rest ∧ (n ≤ length m)%nat ∧ forallb cls m = true
              ∧ k (last_before prev m) rest = Some x.
Proof.
  assert (∀ n prev s,
    match n with O => k prev s | S _ => None end = Some x →
    ∃ m rest, s = m ++ rest ∧ (n ≤ length m)%nat ∧ forallb cls m = true
              ∧ k (last_before prev m) rest = Some x) as Hstop.
  { intros [| n] prev s Hk; [| done]. by exists [], s. }
  induction s as [| c s IH]; intros n prev Hrun; simpl in Hrun; [by apply Hstop |].
  destruct (cls c) eqn:Hc; [| by apply Hstop].
  destruct (greedy cls (pred n) (Some c) s k) as [y |] eqn:Hin; [| by apply Hstop].
  injection Hrun as ->.
  apply IH in Hin as (m & rest & -> & Hn & Hm & Hk).
  exists (c :: m), rest. simplify_eq. split; [done |]. split; [simpl; lia |].
  split; [simpl; by rewrite Hc |]. by rewrite last_before_cons.
Qed.

Lemma run_sound {R} r : ∀ prev s (k : option ascii → str → option R) x,
  run r prev s k = Some x →
  ∃ m rest, s = m ++ rest ∧ matches r prev m rest
            ∧ k (last_before prev m) rest = Some x.
Proof.
  induction r as [| c | n cls | r1 IH1 r2 IH2]; intros prev s k x Hrun; simpl in Hrun.
  - destruct (at_boundary prev s) eqn:Hb; [| done].
    exists [], s. split; [done |]. split; [by constructor | done].
  - destruct s as [| c' s]; [done |].
    destruct (Ascii.eqb_spec c c') as [<- |]; [| done].
    exists [c], s. split; [done |]. split; [constructor | done].
  - apply greedy_sound in Hrun as (m & rest & -> & Hn & Hm & Hk).
    exists m, rest. split; [done |]. split; [by constructor | done].
  - apply IH1 in Hrun as (m1 & rest1 & -> & H1 & Hrun).
    apply IH2 in Hrun as (m2 & rest & -> & H2 & Hk).
    exists (m1 ++ m2), rest. rewrite <- app_assoc. split; [done |].
    split; [by constructor |]. by rewrite last_before_app.
Qed.

(** The matcher finds a match whenever the pattern has one that the
    continuation accepts. *)
Lemma greedy_complete {R} cls (k : option ascii → str → option R) rest :
  ∀ m n prev,
    (n ≤ length m)%nat → forallb cls m = true →
    is_Some (k (last_before prev m) rest) →
    is_Some (greedy cls n prev (m ++ rest) k).
Proof.
  induction m as [| c m IH]; intros n prev Hn Hm Hk; simpl in *.
  - destruct n; [| lia]. unfold last_before in Hk. simpl in Hk.
    destruct rest as [| c s]; [done |]. simpl.
    destruct (cls c); [| done]. by destruct (greedy cls 0 (Some c) s k).
  - apply andb_prop in Hm as [-> Hm].
    rewrite last_before_cons in Hk.
    destruct (IH (pred n) (Some c) ltac:(lia) Hm Hk) as [y ->]. done.
Qed.

Lemma run_complete {R} r prev m rest :
  matches r prev m rest →
  ∀ k : option ascii → str → option R,
    is_Some (k (last_before prev m) rest) →
    is_Some (run r prev (m ++ rest) k).
Proof.
  induction 1 as [prev rest Hb | c prev rest | n cls prev m rest Hn Hm
                 | r1 r2 prev m1 m2 rest _ IH1 _ IH2]; intros k Hk; simpl.
  - by rewrite Hb.
  - by rewrite Ascii.eqb_refl.
  - by apply greedy_complete.
  - rewrite <- app_assoc. apply IH1. apply IH2. by rewrite <- last_before_app.
Qed.

(** [match_at] in terms of the meaning of the pattern. *)
Lemma match_at_sound r prev s n :
  match_at r prev s = Some n →
  ∃ m rest, s = m ++ rest ∧ length m = n ∧ matches r prev m rest.
Proof.
  intros Hrun. apply run_sound in Hrun as (m & rest & -> & Hm & Hn).
  exists m, rest. split; [done |]. split; [| done].
  rewrite length_app in Hn. simplify_eq. lia.
Qed.

Lemma match_at_complete r prev m rest :
  matches r prev m rest → is_Some (match_at r prev (m ++ rest)).
Proof. intros Hm. by apply (run_complete r prev m rest Hm). Qed.

Lemma matches_min_len r prev m rest :
  matches r prev m rest → (min_len r ≤ length m)%nat.
Proof.
  induction 1; simpl; try lia. rewrite length_app. lia.
Qed.

Lemma last_before_nonempty prev (m : str) : m ≠ [] → last_before prev m = last m.
Proof.
  intros Hm. unfold last_before. destruct (last m) eqn:Hl; [done |].
  by apply last_None in Hl.
Qed.

(** Passing over [n] characters leads to the scan of what follows them. *)
Lemma scan_skip r : ∀ s n prev,
  (n ≤ length s)%nat →
  scan r n prev s = scan r 0 (last_before prev (take n s)) (drop n s).
Proof.
  induction s as [| c s IH]; intros [| n] prev Hn; simpl in *; try done; try lia.
  rewrite IH by lia. by rewrite last_before_cons.
Qed.

(** The scan does what [cuts] asks for, for a pattern that matches no
    empty string. *)
Lemma scan_cuts r (Hr : (0 < min_len r)%nat) : ∀ s prev,
  cuts r prev s (scan r 0 prev s).
Proof.
  intros s. remember (length s) as N eqn:HN.
  revert s HN. induction (lt_wf N) as [N _ IH]. intros s -> prev.
  destruct s as [| c s]; [constructor |]. simpl.
  destruct (match_at r prev (c :: s)) as [[| n] |] eqn:Hm.
  - apply match_at_sound in Hm as (m & rest & _ & Hlen & Hm).
    apply matches_min_len in Hm. lia.
  - apply match_at_sound in Hm as (m & rest & Heq & Hlen & Hm).
    assert (m ≠ []) as Hne by (intros ->; done).
    assert (take (S n) (c :: s) = m) as Htake.
    { rewrite Heq, take_app_length'; done. }
    assert (drop (S n) (c :: s) = rest) as Hdrop.
    { rewrite Heq, drop_app_length'; done. }
    assert (S n ≤ length (c :: s))%nat as Hle.
    { rewrite Heq, length_app. lia. }
    change (c :: take n s) with (take (S n) (c :: s)). rewrite Htake.
    simpl in Hle, Hdrop.
    rewrite scan_skip by lia. rewrite Hdrop.
    rewrite <- last_before_cons with (prev := prev).
    change (c :: take n s) with (take (S n) (c :: s)). rewrite Htake.
    rewrite last_before_nonempty by done.
    rewrite Heq. constructor; [done | done |].
    apply (IH (length rest)); [| done].
    rewrite Heq, length_app. destruct m; [done | simpl; lia].
  - constructor.
    + intros m rest Heq Hmatch. apply match_at_complete in Hmatch.
      rewrite <- Heq, Hm in Hmatch. by destruct Hmatch.
    + apply (IH (length s)); [simpl; lia | done].
Qed.

(** The pieces, put side by side, are the subject. *)
Lemma cuts_source r prev s ps :
  cuts r prev s ps → mjoin (source <$> ps) = s.
Proof. induction 1; simpl; by f_equal. Qed.

(** Where a piece stands: after the pieces before it. *)
Lemma cuts_piece r prev s ps :
  cuts r prev s ps →
  ∀ (i : nat) p, ps !! i = Some p →
    let before := mjoin (source <$> take i ps) in
    let after := mjoin (source <$> drop (S i) ps) in
    match p with
    | Hit m => m ≠ [] ∧ matches r (last_before prev before) m after
    | Keep c => ∀ m rest, c :: after = m ++ rest →
                          ¬ matches r (last_before prev before) m rest
    end.
Proof.
  induction 1 as [prev | prev c s ps Hno Hcuts IH | prev m rest ps Hne Hm Hcuts IH];
    intros [| i] p Hp; simpl in *; simplify_eq.
  - rewrite drop_0. by rewrite (cuts_source _ _ _ _ Hcuts).
  - specialize (IH i p Hp). simpl in IH.
    by rewrite last_before_cons.
  - rewrite drop_0. by rewrite (cuts_source _ _ _ _ Hcuts).
  - specialize (IH i p Hp). simpl in IH.
    by rewrite last_before_app, (last_before_nonempty prev m).
Qed.
(** [greedy] returns what the continuation returns for the longest run
    of the class that the continuation accepts. *)
Lemma greedy_first {R} cls (k : option ascii → str → option R) x :
  ∀ s n prev,
    greedy cls n prev s k = Some x →
    ∃ m rest, s = m ++ rest ∧ (n ≤ length m)%nat ∧ forallb cls m = true
              ∧ k (last_before prev m) rest = Some x
              ∧ ∀ m' rest', s = m' ++ rest' → forallb cls m' = true →
                  (length m < length m')%nat →
                  k (last_before prev m') rest' = None.
Proof.
  induction s as [| c s IH]; intros n prev Hrun; simpl in Hrun.
  - destruct n; [| done]. exists [], []. repeat split; try done.
    intros m' rest' Heq _ Hlen. symmetry in Heq.
    apply app_eq_nil in Heq as [-> _]. simpl in Hlen. lia.
  - destruct (cls c) eqn:Hc.
    + destruct (greedy cls (pred n) (Some c) s k) as [y |] eqn:Hin.
      * injection Hrun as ->.
        apply IH in Hin as (m & rest & -> & Hn & Hm & Hk & Hmax).
        exists (c :: m), rest. split; [done |]. split; [simpl; lia |].
        split; [simpl; by rewrite Hc |].
        split; [by rewrite last_before_cons |].
        intros m' rest' Heq Hm' Hlen.
        destruct m' as [| c' m']; [simpl in Hlen; lia |].
        simpl in Heq, Hm', Hlen. injection Heq as <- Heq.
        apply andb_prop in Hm' as [_ Hm'].
        rewrite last_before_cons. apply Hmax; [done | done | lia].
      * destruct n; [| done]. exists [], (c :: s). repeat split; try done.
        intros m' rest' Heq Hm' Hlen.
        destruct m' as [| c' m']; [simpl in Hlen; lia |].
        simpl in Heq, Hm'. injection Heq as <- Heq.
        apply andb_prop in Hm' as [_ Hm'].
        rewrite last_before_cons.
        destruct (k (last_before (Some c) m') rest') as [y |] eqn:Hk; [| done].
        destruct (greedy_complete cls k rest' m' 0%nat (Some c)) as [z Hz];
          [lia | done | by rewrite Hk |].
        simpl in Hin. rewrite Heq, Hz in Hin. done.
    + destruct n; [| done]. exists [], (c :: s). repeat split; try done.
      intros m' rest' Heq Hm' Hlen.
      destruct m' as [| c' m']; [simpl in Hlen; lia |].
      simpl in Heq, Hm'. injection Heq as <- Heq.
      apply andb_prop in Hm' as [Hc' _]. congruence.
Qed.

(** A run of a class that starts at or before a character outside the
    class ends before that character. *)
Lemma run_stops_at cls (c : ascii) (b : str) :
  forallb cls b = true → cls c = false →
  ∀ p a x y : str,
    p ++ b ++ y = a ++ c :: x → (length p ≤ length a)%nat →
    (length p + length b ≤ length a)%nat.
Proof.
  intros Hb Hc. induction p as [| e p IH]; intros a x y Heq Hlen.
  - simpl in *. clear Hlen. revert a Heq.
    induction b as [| e b IHb]; intros a Heq; simpl in *; [lia |].
    apply andb_prop in Hb as [He Hb].
    destruct a as [| e' a]; simpl in Heq.
    + injection Heq as -> _. congruence.
    + injection Heq as <- Heq. specialize (IHb Hb a Heq). simpl. lia.
  - destruct a as [| e' a]; simpl in *; [lia |].
    injection Heq as <- Heq. specialize (IH a x y Heq ltac:(lia)). lia.
Qed.

(** The piece found at a position is the match that the matcher
    returns there. *)
Lemma scan_match_at r (Hr : (0 < min_len r)%nat) : ∀ s prev (i : nat) m,
  scan r 0 prev s !! i = Some (Hit m) →
  match_at r (last_before prev (mjoin (source <$> take i (scan r 0 prev s))))
             (m ++ mjoin (source <$> drop (S i) (scan r 0 prev s)))
  = Some (length m).
Proof.
  intros s. remember (length s) as N eqn:HN.
  revert s HN. induction (lt_wf N) as [N _ IH]. intros s -> prev i m Hi.
  destruct s as [| c s]; [done |]. simpl in Hi |- *.
  destruct (match_at r prev (c :: s)) as [[| n] |] eqn:Hm.
  - apply match_at_sound in Hm as (m0 & rest & _ & Hlen & Hm).
    apply matches_min_len in Hm. lia.
  - pose proof Hm as (m0 & rest & Heq & Hlen & Hm0)%match_at_sound.
    assert (take (S n) (c :: s) = m0) as Htake.
    { rewrite Heq, take_app_length'; done. }
    assert (drop (S n) (c :: s) = rest) as Hdrop.
    { rewrite Heq, drop_app_length'; done. }
    assert (S n ≤ length (c :: s))%nat as Hle.
    { rewrite Heq, length_app. lia. }
    simpl in Hle, Hdrop.
    change (c :: take n s) with (take (S n) (c :: s)) in *. rewrite Htake in *.
    rewrite scan_skip in * by lia. rewrite Hdrop in *.
    destruct i as [| i]; simpl in Hi |- *.
    + injection Hi as <-. rewrite drop_0.
      rewrite (cuts_source _ _ _ _ (scan_cuts r Hr rest _)).
      rewrite <- Heq. change (last_before prev []) with prev. by rewrite Hm, Hlen.
    + rewrite last_before_app.
      replace (last_before prev m0) with (last_before (Some c) (take n s)).
      2:{ rewrite <- Htake. simpl. by rewrite last_before_cons. }
      apply (IH (length rest)); [| done | done].
      rewrite Heq, length_app. destruct m0; [done | simpl; lia].
  - destruct i as [| i]; simpl in Hi |- *; [done |].
    rewrite last_before_cons.
    apply (IH (length s)); [simpl; lia | done | done].
Qed.
End re_facts.

(** ** The email pattern *)

Section email.
Import re re_facts.

Lemma last_app_nonempty (a b : str) : b ≠ [] → last (a ++ b) = last b.
Proof.
  intros Hb. rewrite last_app. destruct (last b) eqn:Hl; [done |].
  by apply last_None in Hl.
Qed.

Lemma nonempty_length {A} (l : list A) : (1 ≤ length l)%nat → l ≠ [].
Proof. destruct l; simpl; [lia | done]. Qed.

Lemma email_pattern_inv prev m rest :
  matches email_pattern prev m rest → matches_email_pattern prev m rest.
Proof.
  unfold email_pattern. intros H.
  repeat match goal with
         | H : matches (Seq _ _) _ _ _ |- _ => inversion H; subst; clear H
         | H : matches WordBoundary _ _ _ |- _ => inversion H; subst; clear H
         | H : matches (Char _) _ _ _ |- _ => inversion H; subst; clear H
         | H : matches (AtLeast _ _) _ _ _ |- _ => inversion H; subst; clear H
         end.
  match goal with
  | Hl : forallb cls_local ?l = true, Hd : forallb cls_domain ?d = true,
    Ht : forallb cls_tld ?t = true, Hn : (2 ≤ length ?t)%nat,
    Hb : at_boundary (last_before _ ?t) _ = true |- _ =>
      exists l, d, t;
      assert (t ≠ []) as Htld by (apply nonempty_length; lia);
      rewrite (last_before_nonempty _ t) in Hb by done
  end.
  change (lit "@") with ["@"%char]. change (lit ".") with ["."%char].
  rewrite app_nil_l, app_nil_r in *.
  repeat split; try done; try (apply nonempty_length; lia).
  rewrite !last_app_nonempty; first done;
    intros Heq; apply (f_equal length) in Heq;
    rewrite ?length_app in Heq; simpl in Heq; lia.
Qed.

Lemma email_pattern_intro prev m rest :
  matches_email_pattern prev m rest → matches email_pattern prev m rest.
Proof.
  intros (l & d & t & -> & Hl & Hcl & Hd & Hcd & Ht & Hct & Hb1 & Hb2).
  assert (t ≠ []) as Htld by (apply nonempty_length; lia).
  assert (∀ x : str, x ≠ [] → (1 ≤ length x)%nat) as Hlen
    by (intros [| ? ?] ?; [done | simpl; lia]).
  change (lit "@") with ["@"%char] in *. change (lit ".") with ["."%char] in *.
  unfold email_pattern.
  rewrite <- (app_nil_l (l ++ _)). constructor; [by constructor |].
  constructor; [constructor; auto |].
  constructor; [constructor |].
  constructor; [constructor; auto |].
  constructor; [constructor |].
  rewrite <- (app_nil_r t) at 1. constructor; [by constructor |].
  constructor. rewrite last_before_nonempty by done.
  rewrite !last_app_nonempty in Hb2; first done;
    intros Heq; apply (f_equal length) in Heq;
    rewrite ?length_app in Heq; simpl in Heq; lia.
Qed.

(** Without the bar character the class of the TLD is the letters. *)
Lemma cls_tld_letter c : c ≠ "|"%char → cls_tld c = is_letter c.
Proof.
  intros Hc. unfold cls_tld, is_letter, one_of, contains. simpl.
  destruct (Ascii.eqb_spec c "|"); [done |].
  by rewrite !orb_false_r.
Qed.

Lemma is_letter_cls_tld c : is_letter c = true → cls_tld c = true.
Proof.
  unfold cls_tld, is_letter. intros [-> | ->]%orb_true_iff; [done |].
  by rewrite orb_true_r.
Qed.

Lemma forallb_weaken (f g : ascii → bool) (l : str) :
  (∀ c, c ∈ l → f c = true → g c = true) →
  forallb f l = true → forallb g l = true.
Proof.
  induction l as [| c l IH]; intros Hfg Hf; simpl in *; [done |].
  apply andb_prop in Hf as [Hc Hl].
  rewrite (Hfg c) by (done || left). simpl.
  apply IH; [| done]. intros c' Hc'. apply Hfg. by right.
Qed.

Lemma is_email_matches prev m rest :
  is_email prev m rest → matches email_pattern prev m rest.
Proof.
  intros (l & d & t & ? & ? & ? & ? & ? & ? & Ht & ? & ?).
  apply email_pattern_intro. exists l, d, t. repeat split; try done.
  revert Ht. apply forallb_weaken. intros c _. apply is_letter_cls_tld.
Qed.

Lemma matches_is_email prev m rest :
  "|"%char ∉ m → matches email_pattern prev m rest → is_email prev m rest.
Proof.
  intros Hbar (l & d & t & -> & ? & ? & ? & ? & ? & Ht & ? & ?)%email_pattern_inv.
  exists l, d, t. repeat split; try done.
  revert Ht. apply forallb_weaken. intros c Hc Hcls.
  rewrite <- cls_tld_letter; [done |].
  intros ->. apply Hbar. rewrite !elem_of_app. auto.
Qed.

(** A match spans six characters or more. *)
Lemma email_match_len prev m rest :
  matches email_pattern prev m rest → 6 ≤ len m.
Proof. intros H%matches_min_len. simpl in H. unfold len. lia. Qed.

(** The replacement of a match: three characters, five mask
    characters, four characters. *)
Lemma mask_email_shape (mask_char m : str) :
  6 ≤ len m →
  mask_email mask_char m
  = take 3 m ++ mul mask_char 5 ++ drop (length m - 4) m.
Proof.
  intros Hm. unfold mask_email.
  rewrite slice_prefix by lia.
  change (slice m (Some (-4)) None) with (slice m (Some (Z.opp 4)) None).
  rewrite slice_suffix by lia. done.
Qed.

Lemma mask_email_len (mask_char m : str) :
  len mask_char = 1 → 6 ≤ len m → len (mask_email mask_char m) = 12.
Proof.
  intros Hc Hm. rewrite mask_email_shape by done.
  rewrite !len_app, len_mul_char by (done || lia).
  unfold len in *. rewrite length_take, length_drop. lia.
Qed.
(** From a given start the matcher returns the longest match of the
    email pattern. *)
Lemma email_match_longest prev (s : str) (n : nat) :
  match_at email_pattern prev s = Some n →
  ∀ m' rest', s = m' ++ rest' → matches email_pattern prev m' rest' →
    (length m' ≤ n)%nat.
Proof.
  intros Hrun m' rest' Heq Hm'.
  apply email_pattern_inv in Hm'
    as (l' & d' & t' & -> & Hl' & Hcl' & Hd' & Hcd' & Ht' & Hct' & _ & Hb').
  change (lit "@") with ["@"%char] in *. change (lit ".") with ["."%char] in *.
  assert (t' ≠ []) as Htne by (apply nonempty_length; lia).
  replace (last (l' ++ ["@"%char] ++ d' ++ ["."%char] ++ t')) with (last t') in Hb'.
  2:{ rewrite !app_assoc. by rewrite last_app_nonempty. }
  unfold match_at, email_pattern in Hrun. cbn [run] in Hrun.
  destruct (at_boundary prev s); [| done].
  apply greedy_first in Hrun as (l & r1 & Hs & _ & Hcl & Hk1 & _).
  destruct r1 as [| a r1]; [done |].
  destruct (Ascii.eqb_spec "@" a) as [<- |]; [| done].
  apply greedy_first in Hk1 as (d & r2 & -> & _ & Hcd & Hk2 & Hmaxd).
  destruct r2 as [| a r2]; [done |].
  destruct (Ascii.eqb_spec "." a) as [<- |]; [| done].
  apply greedy_first in Hk2 as (t & r3 & -> & Ht & Hct & Hk3 & Hmaxt).
  destruct (at_boundary (last_before (Some "."%char) t) r3); [| done].
  injection Hk3 as <-.
  rewrite Hs in Heq |- *. clear Hs.
  rewrite <- !app_assoc in Heq. simpl in Heq.
  (* the local parts are the same *)
  assert (length l = length l') as Hll.
  { pose proof (run_stops_at cls_local "@" l Hcl eq_refl [] l' _ _ Heq) as H1.
    symmetry in Heq.
    pose proof (run_stops_at cls_local "@" l' Hcl' eq_refl [] l _ _ Heq) as H2.
    simpl in *. lia. }
  apply app_inj_1 in Heq as [<- Heq]; [| done]. injection Heq as Heq.
  (* the domain of the other match is not longer *)
  destruct (decide (length d < length d')%nat) as [Hlt | Hge].
  { exfalso.
    specialize (Hmaxd d' ("."%char :: t' ++ rest') Heq Hcd' Hlt).
    simpl in Hmaxd.
    match type of Hmaxd with
    | greedy _ _ _ _ ?k = None =>
        destruct (greedy_complete cls_tld k rest' t' 2%nat (Some "."%char))
          as [z Hz]; [lia | done | | congruence]
    end.
    rewrite last_before_nonempty by done. by rewrite Hb'. }
  destruct (decide (length d' < length d)%nat) as [Hlt | Hge'].
  { pose proof (run_stops_at cls_tld "." t' Hct' eq_refl (d' ++ ["."%char]) d
                  (t ++ r3) rest') as Hstop.
    rewrite <- !app_assoc in Hstop. simpl in Hstop.
    specialize (Hstop (eq_sym Heq)). rewrite length_app in Hstop. simpl in Hstop.
    specialize (Hstop ltac:(lia)).
    repeat (rewrite !length_app; simpl). lia. }
  apply app_inj_1 in Heq as [<- Heq]; [| lia]. injection Heq as Heq.
  destruct (decide (length t < length t')%nat) as [Hlt | Hget].
  { exfalso.
    specialize (Hmaxt t' rest' Heq Hct' Hlt). simpl in Hmaxt.
    rewrite last_before_nonempty in Hmaxt by done. by rewrite Hb' in Hmaxt. }
  repeat (rewrite !length_app; simpl). lia.
Qed.
End email.

(** ** The masker *)

Section masker.
Import re re_facts.

Lemma email_cuts (text : str) :
  cuts email_pattern None text (finditer email_pattern text).
Proof. apply scan_cuts. simpl. lia. Qed.

Lemma finditer_source (text : str) :
  mjoin (source <$> finditer email_pattern text) = text.
Proof. apply (cuts_source _ _ _ _ (email_cuts text)). Qed.

Lemma source_split (ps : list piece) : ∀ (i : nat) p,
  ps !! i = Some p →
  mjoin (source <$> ps)
  = mjoin (source <$> take i ps) ++ source p ++ mjoin (source <$> drop (S i) ps).
Proof.
  induction ps as [| q ps IH]; intros [| i] p Hp; simpl in *; simplify_eq.
  - by rewrite drop_0.
  - rewrite <- app_assoc. f_equal. apply (IH i p Hp).
Qed.

Lemma last_before_None (m : str) : last_before None m = last m.
Proof. unfold last_before. by destruct (last m). Qed.

(** Where no match is found, [re.sub] returns the subject. *)
Lemma sub_no_match (repl : str → str) (text : str) :
  search email_pattern text = false →
  sub email_pattern repl text = text.
Proof.
  intros Hno. unfold sub, search in *.
  rewrite <- (finditer_source text) at 2.
  induction (finditer email_pattern text) as [| [c | m] ps IH]; simpl in *;
    [done | | done].
  f_equal. by apply IH.
Qed.

Lemma mask_sensitive_data_unfold (text mask_char : str) :
  mask_sensitive_data text mask_char
  = if path_trigger (mask_emails mask_char text)
    then mask_path mask_char (mask_emails mask_char text)
    else mask_emails mask_char text.
Proof. unfold mask_sensitive_data. by destruct text. Qed.

Lemma contains_elem_of (c : ascii) (s : str) : contains c s = true ↔ c ∈ s.
Proof.
  unfold contains. induction s as [| c' s IH]; simpl.
  - split; [done | by intros ?%elem_of_nil].
  - rewrite elem_of_cons, orb_true_iff, IH.
    destruct (Ascii.eqb_spec c c') as [-> | Hne]; [by split; auto |].
    split; intros [? | ?]; auto; done.
Qed.

Lemma path_trigger_spec (text : str) :
  path_trigger text = true
  ↔ 30 < len text ∧ ("/"%char ∈ text ∨ "\"%char ∈ text).
Proof.
  unfold path_trigger.
  rewrite andb_true_iff, orb_true_iff, !contains_elem_of, Z.ltb_lt. done.
Qed.

Lemma mask_path_shape (mask_char text : str) :
  30 < len text →
  mask_path mask_char text
  = take 10 text ++ mul mask_char 10 ++ drop (length text - 10) text.
Proof.
  intros Hlen. unfold mask_path. rewrite slice_prefix by lia.
  change (slice text (Some (-10)) None) with (slice text (Some (Z.opp 10)) None).
  by rewrite slice_suffix by lia.
Qed.

Lemma mask_path_len (mask_char text : str) :
  len mask_char = 1 → 30 < len text → len (mask_path mask_char text) = 30.
Proof.
  intros Hc Hlen. rewrite mask_path_shape by done.
  rewrite !len_app, len_mul_char by (done || lia).
  unfold len in *. rewrite length_take, length_drop. lia.
Qed.
End masker.

(** C4, as amended: for every input string without the bar character,
    the email step of the masker cuts the string, from left to right,
    into successive matches of its pattern and the characters at which
    no match starts; each match it takes is the longest one that starts
    at its place; every match is replaced by its first 3 characters, 5
    mask characters and its last 4 characters, which makes exactly 12
    characters whatever the length of the match, and every other
    character is kept. A match is a substring [local@domain.tld] (local
    part of [[A-Za-z0-9._%+-]+], domain of [[A-Za-z0-9.-]+], TLD of two
    or more letters) that starts and ends at a word boundary. The masker
    returns the string so obtained, unless that string is longer than 30
    characters and holds a slash or a backslash: then it returns its
    first 10 characters, 10 mask characters and its last 10 characters.
    Masking ["john.doe@example.com"] yields ["joh*****.com"]. *)
Theorem email_masking (text mask_char : str) :
  len mask_char = 1 → "|"%char ∉ text →
  let pieces := re.finditer email_pattern text in
  let masked := mjoin (re.render (mask_email mask_char) <$> pieces) in
  let triggered := 30 < len masked ∧ ("/"%char ∈ masked ∨ "\"%char ∈ masked) in
  mjoin (re.source <$> pieces) = text
  ∧ mask_emails mask_char text = masked
  ∧ (∀ (i : nat) (p : re.piece), pieces !! i = Some p →
       let before := mjoin (re.source <$> take i pieces) in
       let after := mjoin (re.source <$> drop (S i) pieces) in
       match p with
       | re.Hit m =>
           is_email (last before) m after
           ∧ (∀ m' rest', m ++ after = m' ++ rest' →
                is_email (last before) m' rest' → (length m' ≤ length m)%nat)
           ∧ re.render (mask_email mask_char) p
             = take 3 m ++ mul mask_char 5 ++ drop (length m - 4) m
           ∧ len (re.render (mask_email mask_char) p) = 12
       | re.Keep c =>
           (∀ m rest, c :: after = m ++ rest → ¬ is_email (last before) m rest)
           ∧ re.render (mask_email mask_char) p = [c]
       end)
  ∧ (¬ triggered → mask_sensitive_data text mask_char = masked)
  ∧ (triggered →
       mask_sensitive_data text mask_char
       = take 10 masked ++ mul mask_char 10 ++ drop (length masked - 10) masked)
  ∧ mask_sensitive_data (lit "john.doe@example.com") star = lit "joh*****.com".
Proof.
  intros Hc Hbar pieces masked triggered. split; [apply finditer_source |].
  split; [done |]. split; [| split; [| split; [| vm_compute; reflexivity]]].
  - intros i p Hp before after.
    pose proof (re_facts.cuts_piece _ _ _ _ (email_cuts text) i p Hp) as Hpiece.
    simpl in Hpiece. fold pieces before after in Hpiece.
    rewrite last_before_None in Hpiece.
    destruct p as [c | m].
    + split; [| done]. intros m rest Heq Hm. apply (Hpiece m rest Heq).
      by apply is_email_matches.
    + destruct Hpiece as [Hne Hm].
      assert ("|"%char ∉ m) as Hbar_m.
      { intros Hin. apply Hbar. rewrite <- (finditer_source text). fold pieces.
        rewrite (source_split pieces i _ Hp). simpl.
        rewrite !elem_of_app. auto. }
      pose proof (email_match_len _ _ _ Hm) as Hlen.
      split; [by apply matches_is_email |].
      split; [| simpl; split; [by apply mask_email_shape | by apply mask_email_len]].
      intros m' rest' Heq Hm'.
      assert (re.match_at email_pattern (last before) (m ++ after) = Some (length m))
        as Hat.
      { pose proof (re_facts.scan_match_at email_pattern ltac:(simpl; lia) text None i m Hp)
          as Hat.
        by rewrite last_before_None in Hat. }
      apply (email_match_longest _ _ _ Hat m' rest' Heq).
      by apply is_email_matches.
  - intros Hno. rewrite mask_sensitive_data_unfold. fold (mask_emails mask_char text).
    change (mask_emails mask_char text) with masked.
    destruct (path_trigger masked) eqn:Htrig; [| done].
    by apply path_trigger_spec in Htrig.
  - intros Htrig. pose proof Htrig as [Hlen _].
    rewrite mask_sensitive_data_unfold.
    change (mask_emails mask_char text) with masked.
    apply path_trigger_spec in Htrig. rewrite Htrig.
    by apply mask_path_shape.
Qed.

Lemma email_masking_witness :
  let text := lit "write to john.doe@example.com today" in
  let pieces := re.finditer email_pattern text in
  mjoin (re.source <$> pieces) = text
  ∧ mask_emails star text = mjoin (re.render (mask_email star) <$> pieces)
  ∧ (∀ (i : nat) (p : re.piece), pieces !! i = Some p →
       let before := mjoin (re.source <$> take i pieces) in
       let after := mjoin (re.source <$> drop (S i) pieces) in
       match p with
       | re.Hit m =>
           is_email (last before) m after
           ∧ (∀ m' rest', m ++ after = m' ++ rest' →
                is_email (last before) m' rest' → (length m' ≤ length m)%nat)
           ∧ re.render (mask_email star) p
             = take 3 m ++ mul star 5 ++ drop (length m - 4) m
           ∧ len (re.render (mask_email star) p) = 12
       | re.Keep c =>
           (∀ m rest, c :: after = m ++ rest → ¬ is_email (last before) m rest)
           ∧ re.render (mask_email star) p = [c]
       end)
  ∧ mask_sensitive_data text star = lit "write to joh*****.com today".
Proof.
  intros text pieces.
  assert ("|"%char ∉ text) as Hbar.
  { intros Hin%list_elem_of_In. vm_compute in Hin. intuition discriminate. }
  pose proof (email_masking text star eq_refl Hbar) as (H1 & H2 & H3 & H4 & _).
  split; [exact H1 |]. split; [exact H2 |]. split; [exact H3 |].
  rewrite H4; [vm_compute; reflexivity |].
  intros [Hlen _]. vm_compute in Hlen. discriminate.
Defined.

(** C4 as stated fails in three ways. ["a@b.com"] inside ["a@b.com1"]
    matches the pattern that the specification words, which would give
    ["a@b*****.com1"], and the masker returns the string as it is, for
    want of a word boundary after the TLD. ["a@b.c|d"] contains no match
    of that pattern and is masked all the same: in the class of the TLD
    the source lists the bar character next to the letters. And a
    substring that is replaced need not be a maximal matching one: in
    ["a@b.co-x@d.ef"] the substring ["b.co-x@d.ef"] matches, between
    word boundaries, but the masker, going from left to right, replaces
    ["a@b.co"] and then ["-x@d.ef"], which is only a part of it. *)
Lemma email_pattern_counterexample :
  (re.finditer email_pattern_spec (lit "a@b.com1")
     = [re.Hit (lit "a@b.com"); re.Keep "1"]
   ∧ re.sub email_pattern_spec (mask_email star) (lit "a@b.com1") = lit "a@b*****.com1"
   ∧ mask_sensitive_data (lit "a@b.com1") star = lit "a@b.com1")
  ∧ (re.search email_pattern_spec (lit "a@b.c|d") = false
     ∧ mask_sensitive_data (lit "a@b.c|d") star = lit "a@b*****.c|d")
  ∧ (lit "a@b.co-x@d.ef" = lit "a@" ++ lit "b.co-x@d.ef"
     ∧ is_email (Some "@"%char) (lit "b.co-x@d.ef") []
     ∧ re.finditer email_pattern (lit "a@b.co-x@d.ef")
       = [re.Hit (lit "a@b.co"); re.Hit (lit "-x@d.ef")]
     ∧ mask_sensitive_data (lit "a@b.co-x@d.ef") star
       = lit "a@b*****b.co-x@*****d.ef").
Proof.
  split; [vm_compute; repeat split |]. split; [vm_compute; repeat split |].
  split; [reflexivity |]. split; [| vm_compute; repeat split].
  exists (lit "b.co-x"), (lit "d"), (lit "ef"). repeat split; try reflexivity; discriminate.
Qed.

(** C5: for every input string, path masking is applied if and only if
    the string, after email masking, is longer than 30 characters and
    contains a forward or a backward slash; the whole string is then
    replaced by its first 10 characters, 10 mask characters and its
    last 10 characters, 30 characters in all; the empty string is
    returned as it is. *)
Theorem path_masking (text mask_char : str) :
  len mask_char = 1 →
  let masked := mask_emails mask_char text in
  let triggered := 30 < len masked ∧ ("/"%char ∈ masked ∨ "\"%char ∈ masked) in
  (triggered →
     mask_sensitive_data text mask_char
     = take 10 masked ++ mul mask_char 10 ++ drop (length masked - 10) masked
     ∧ len (mask_sensitive_data text mask_char) = 30)
  ∧ (¬ triggered → mask_sensitive_data text mask_char = masked)
  ∧ mask_sensitive_data [] mask_char = [].
Proof.
  intros Hc masked triggered. rewrite mask_sensitive_data_unfold. fold masked.
  split; [| split; [| done]].
  - intros Htrig. pose proof Htrig as [Hlen _].
    apply path_trigger_spec in Htrig. rewrite Htrig.
    split; [by apply mask_path_shape | by apply mask_path_len].
  - intros Hno. destruct (path_trigger masked) eqn:Htrig; [| done].
    by apply path_trigger_spec in Htrig.
Qed.

Lemma path_masking_witness :
  let text := lit "/home/user/documents/reports/2024/q1.pdf" in
  mask_sensitive_data text star
  = take 10 (mask_emails star text) ++ mul star 10
    ++ drop (length (mask_emails star text) - 10) (mask_emails star text)
  ∧ len (mask_sensitive_data text star) = 30.
Proof.
  intros text.
  apply (path_masking text star eq_refl).
  split; [vm_compute; reflexivity |].
  left. apply list_elem_of_In. vm_compute. auto.
Defined.

(** C6: the masker is idempotent on its own output whenever that output
    contains no further match of the email pattern and does not satisfy
    the path-masking trigger; and it is a function of its arguments:
    equal inputs give equal outputs. *)
Theorem mask_idempotent (t mask_char : str) :
  let u := mask_sensitive_data t mask_char in
  (re.search email_pattern u = false → path_trigger u = false →
     mask_sensitive_data u mask_char = u)
  ∧ (∀ t', t' = t → mask_sensitive_data t' mask_char = u).
Proof.
  intros u. split; [| by intros t' ->].
  intros Hno Htrig. rewrite mask_sensitive_data_unfold.
  unfold mask_emails. rewrite sub_no_match by done. by rewrite Htrig.
Qed.

Lemma mask_idempotent_witness :
  let u := mask_sensitive_data (lit "john.doe@example.com") star in
  u = lit "joh*****.com" ∧ mask_sensitive_data u star = u.
Proof.
  intros u. split; [vm_compute; reflexivity |].
  apply (proj1 (mask_idempotent (lit "john.doe@example.com") star));
    vm_compute; reflexivity.
Defined.

(** ** Running a computation *)

Lemma bind_ok {W A B} (m : M W A) (k : A → M W B) w a w' :
  m w = (Ok a, w') → bind m k w = k a w'.
Proof. intros Hm. unfold bind. by rewrite Hm. Qed.

Lemma bind_raise {W A B} (m : M W A) (k : A → M W B) w e w' :
  m w = (Raise e, w') → bind m k w = (Raise e, w').
Proof. intros Hm. unfold bind. by rewrite Hm. Qed.


(** Logging an exception and raising it again changes nothing. *)
Lemma try_reraise {W A} (m : M W A) w : try_except m (λ e, raise e) w = m w.
Proof. unfold try_except, raise. by destruct (m w) as [[a | e |] w']. Qed.

(** ** The mock vector index *)

Section vector_store_facts.
Context {Ext : Type} `{!SDK Ext}.

Lemma field_differs_spec (field value : str) (doc : document) :
  field_differs field value doc = true ↔ doc !! field ≠ Some (VStr value).
Proof.
  unfold field_differs. destruct (doc !! field) as [[s | z | q | v] |]; try done.
  rewrite negb_true_iff, bool_decide_eq_false. split; congruence.
Qed.

Lemma filter_field_differs (field value : str) (docs : list document) :
  List.filter (field_differs field value) docs
  = filter (λ doc, doc !! field ≠ Some (VStr value)) docs.
Proof.
  induction docs as [| doc docs IH]; [done |]. simpl. rewrite filter_cons, IH.
  destruct (field_differs field value doc) eqn:Hd; case_decide as Hne; try done.
  - by apply field_differs_spec in Hd.
  - apply field_differs_spec in Hne. congruence.
Qed.

Lemma filter_split_len {A} (P : A → Prop) `{!∀ x, Decision (P x)} (l : list A) :
  len l - len (filter (λ x, ¬ P x) l) = len (filter P l).
Proof.
  unfold len. induction l as [| x l IH]; [done |].
  rewrite !filter_cons. repeat case_decide; simpl in *; try done; lia.
Qed.

Lemma filter_none {A} (P : A → Prop) `{!∀ x, Decision (P x)} (l : list A) :
  filter P l = [] → filter (λ x, ¬ P x) l = l.
Proof.
  induction l as [| x l IH]; [done |]. rewrite !filter_cons.
  case_decide; [done |]. intros Hl. case_decide; [| done]. f_equal. by apply IH.
Qed.

Lemma set_mock_storage_same (w : World Ext) :
  set_mock_storage w (mock_storage (vector_store w)) = w.
Proof. by destruct w as [? ? [? ?] ? ?]. Qed.

(** The mock branch of [delete_by_metadata]. *)
Lemma delete_by_metadata_mock (field value : str) (w : World Ext) :
  vs_mock_mode (vector_store w) = true →
  let storage := mock_storage (vector_store w) in
  delete_by_metadata field value w
  = (Ok (len (filter (λ doc, doc !! field = Some (VStr value)) storage)),
     set_mock_storage w (filter (λ doc, doc !! field ≠ Some (VStr value)) storage)).
Proof.
  intros Hmock storage.
  unfold delete_by_metadata, try_except, bind, get, put, ret. simpl.
  rewrite Hmock. simpl. fold storage.
  rewrite filter_field_differs. by rewrite filter_split_len.
Qed.

(** The comprehension of the mock branch of [search] on documents that
    [store_vectors] wrote. *)
Lemma mock_hits (docs : list document) : ∀ (acc : list hit) (w : World Ext),
  Forall is_record docs →
  ∃ hits, for_each docs acc (λ out doc, let* h := mock_hit doc in ret (out ++ [h])) w
          = (Ok (acc ++ hits), w)
          ∧ Forall2 hit_of docs hits.
Proof.
  induction docs as [| doc docs IH]; intros acc w Hrec.
  - exists []. by rewrite app_nil_r.
  - apply Forall_cons in Hrec as [([c Hc] & [f Hf] & [i Hi]) Hrec].
    set (h := {| hit_text := c; hit_score := QArith_base.Qmake 95 100;
                 hit_metadata := {[ lit "filename" := f; lit "chunk_id" := i ]} |}).
    destruct (IH (acc ++ [h]) w Hrec) as (hits & Hrun & Hhits).
    exists (h :: hits). split.
    + assert (mock_hit doc w = (Ok h, w)) as Hh.
      { unfold mock_hit, getitem. by rewrite Hc, Hf, Hi. }
      assert ((let* h := mock_hit doc in ret (acc ++ [h])) w
              = (Ok (acc ++ [h]), w)) as Hstep
        by (by rewrite (bind_ok _ _ _ _ _ Hh)).
      cbn [for_each]. rewrite (bind_ok _ _ _ _ _ Hstep).
      rewrite Hrun. by rewrite <- app_assoc.
    + constructor; [| done]. unfold hit_of. subst h.
      cbn [hit_text hit_score hit_metadata].
      rewrite Hc, Hf, Hi. repeat split.
Qed.
End vector_store_facts.

(** C9: in mock mode, for every stored list of records and every
    [top_k >= 0], [search] returns one hit for each of the first
    [min top_k N] records, in insertion order, each with the same score
    0.95, and changes nothing; so the result holds at most [top_k] hits,
    and a search against an empty index returns the empty list and no
    error. *)
Theorem mock_search `{!SDK Ext} (w : World Ext) (query_embedding : list float)
    (top_k : Z) :
  vs_mock_mode (vector_store w) = true →
  0 ≤ top_k →
  let storage := mock_storage (vector_store w) in
  Forall is_record storage →
  ∃ hits,
    search query_embedding top_k w = (Ok hits, w)
    ∧ Forall2 hit_of (take (Z.to_nat top_k) storage) hits
    ∧ len hits = Z.min top_k (len storage)
    ∧ len hits ≤ top_k
    ∧ (storage = [] → hits = []).
Proof.
  intros Hmock Hk storage Hrec.
  destruct (mock_hits (take (Z.to_nat top_k) storage) [] w) as (hits & Hrun & Hhits).
  { by apply Forall_take. }
  exists hits. assert (len hits = Z.min top_k (len storage)) as Hlen.
  { apply Forall2_length in Hhits. unfold len.
    rewrite <- Hhits, length_take. lia. }
  split; [| split; [done | split; [done | split; [lia |]]]].
  - unfold search. rewrite try_reraise.
    unfold bind at 1, get. rewrite Hmock. fold storage.
    by rewrite slice_prefix by done.
  - intros Hempty. rewrite Hempty in Hlen. destruct hits; [done |].
    unfold len in Hlen. simpl in Hlen. lia.
Qed.

Lemma mock_search_witness :
  let w := set_mock_storage (start true true) [indexed_document; indexed_document] in
  ∃ hits, search (Ext := list string) [] 1 w = (Ok hits, w)
          ∧ Forall2 hit_of [indexed_document] hits.
Proof.
  intros w.
  destruct (mock_search w [] 1) as (hits & Hrun & Hhits & _).
  - reflexivity.
  - lia.
  - repeat constructor; by eexists.
  - exists hits. split; [exact Hrun | exact Hhits].
Defined.

(** C10: in mock mode, for every stored list of records and every
    field and value, [delete_by_metadata] removes exactly the records
    whose field equals the value, returns their number, and leaves every
    other record in the store, unchanged and in the original order; when
    no record matches it returns 0 and leaves the store as it was. *)
Theorem mock_delete `{!SDK Ext} (w : World Ext) (field value : str) :
  vs_mock_mode (vector_store w) = true →
  let storage := mock_storage (vector_store w) in
  let removed := filter (λ doc, doc !! field = Some (VStr value)) storage in
  let kept := filter (λ doc, doc !! field ≠ Some (VStr value)) storage in
  delete_by_metadata field value w = (Ok (len removed), set_mock_storage w kept)
  ∧ kept `sublist_of` storage
  ∧ len storage = len kept + len removed
  ∧ (removed = [] → delete_by_metadata field value w = (Ok 0, w)).
Proof.
  intros Hmock storage removed kept.
  pose proof (delete_by_metadata_mock field value w Hmock) as Hrun.
  split; [exact Hrun |]. split; [apply sublist_filter |].
  split.
  - assert (len storage - len kept = len removed) as Hlen
      by apply (filter_split_len (λ doc : document, doc !! field = Some (VStr value))).
    lia.
  - intros Hnone. rewrite Hrun. subst removed kept storage.
    rewrite (filter_none _ _ Hnone), Hnone. by rewrite set_mock_storage_same.
Qed.

Lemma mock_delete_witness :
  let w := set_mock_storage (start true true) [indexed_document] in
  delete_by_metadata (Ext := list string) (lit "filename") (lit "indexed.pdf") w
  = (Ok 1, set_mock_storage w [])
  ∧ delete_by_metadata (Ext := list string) (lit "filename") (lit "other.pdf") w
    = (Ok 0, w).
Proof.
  intros w. split.
  - apply (mock_delete w (lit "filename") (lit "indexed.pdf")). reflexivity.
  - apply (mock_delete w (lit "filename") (lit "other.pdf")); reflexivity.
Defined.

(** ** What [store_vectors] writes *)

Section stored_records.
Context {Ext : Type} `{!SDK Ext}.

Lemma call_config {A} (m : M Ext A) (w w' : World Ext) r :
  call m w = (r, w') → w' = set_ext w (ext w').
Proof.
  unfold call. destruct (m (ext w)) as [r' x]. by intros [= <- <-].
Qed.

Lemma store_loop_records (metadata : gmap str pyval) pairs :
  ∀ (acc : list document * list str * Z) (w w' : World Ext) r,
    for_each pairs acc
      (λ '(documents, doc_ids, idx) '(embedding, text),
         let* doc_id := call uuid4 in
         let document : document :=
           {[ lit "id" := VStr doc_id;
              lit "content" := VStr text;
              lit "embedding" := VFloats embedding;
              lit "filename" := dict_get metadata "filename" (VStr []);
              lit "chunk_id" := VInt idx ]} in
         ret (documents ++ [document], doc_ids ++ [doc_id], idx + 1)) w
    = (r, w') →
    Forall is_record acc.1.1 →
    vector_store w' = vector_store w
    ∧ match r with
      | Ok (documents, _, _) => Forall is_record documents
      | _ => True
      end.
Proof.
  induction pairs as [| [embedding text] pairs IH];
    intros [[documents doc_ids] idx] w w' r Hrun Hrec.
  - injection Hrun as <- <-. done.
  - cbn [for_each] in Hrun. unfold bind at 1 2 in Hrun.
    destruct (call uuid4 w) as [[doc_id | e |] w1] eqn:Hcall;
      apply call_config in Hcall; try (injection Hrun as <- <-; by rewrite Hcall).
    unfold ret at 1 in Hrun. apply IH in Hrun as [Hvs Hr].
    + split; [| done]. by rewrite Hvs, Hcall.
    + simpl. apply Forall_app. split; [done |].
      repeat constructor; by eexists.
Qed.

(** In mock mode the store only ever holds documents with the keys
    that [search] reads. *)
Lemma store_vectors_records embeddings texts metadata (w w' : World Ext) r :
  store_vectors embeddings texts metadata w = (r, w') →
  Forall is_record (mock_storage (vector_store w)) →
  Forall is_record (mock_storage (vector_store w')).
Proof.
  unfold store_vectors. rewrite try_reraise. intros Hrun Hrec.
  unfold bind at 1 in Hrun.
  match type of Hrun with
  | context [for_each ?ps ?acc ?body w] =>
      destruct (for_each ps acc body w) as [[[[documents doc_ids] idx] | e |] w1] eqn:Hloop;
      destruct (store_loop_records _ _ _ _ _ _ Hloop (Forall_nil_2 _)) as [Hvs Hdocs]
  end; try (injection Hrun as <- <-; by rewrite Hvs).
  unfold bind, get, put, ret in Hrun. simpl in Hrun.
  destruct (vs_mock_mode (vector_store w1)).
  - injection Hrun as <- <-. simpl. rewrite Hvs. by apply Forall_app.
  - destruct (call (upload_documents documents) w1) as [[n | e |] w2] eqn:Hcall;
      apply call_config in Hcall; injection Hrun as <- <-;
      by rewrite Hcall; simpl; rewrite Hvs.
Qed.

Lemma delete_by_metadata_records (field value : str) (w w' : World Ext) r :
  vs_mock_mode (vector_store w) = true →
  delete_by_metadata field value w = (r, w') →
  Forall is_record (mock_storage (vector_store w)) →
  Forall is_record (mock_storage (vector_store w')).
Proof.
  intros Hmock Hrun Hrec. rewrite delete_by_metadata_mock in Hrun by done.
  injection Hrun as <- <-. simpl.
  apply Forall_forall. intros doc [_ Hdoc]%list_elem_of_filter.
  by apply (proj1 (Forall_forall _ _) Hrec).
Qed.
End stored_records.

(** ** The handlers *)

Section handler_facts.
Context {Ext : Type} `{!SDK Ext}.

Lemma lstrip_blank (s : str) : blank s → lstrip s = [].
Proof.
  unfold blank. induction s as [| c s IH]; [done |]. simpl.
  intros [-> Hs]%andb_prop. by apply IH.
Qed.

Lemma strip_blank (s : str) : blank s → strip s = [].
Proof. intros Hs. unfold strip, rstrip. by rewrite (lstrip_blank s Hs). Qed.

Lemma blank_app (s t : str) : blank s → blank t → blank (s ++ t).
Proof. unfold blank. rewrite forallb_app. by intros -> ->. Qed.

(** Pages without text make a text without text. *)
Lemma full_text_blank (pages : list str) : ∀ acc : str,
  blank acc → Forall blank pages →
  blank (foldl (λ full_text text, full_text ++ (text ++ newline)) acc pages).
Proof.
  induction pages as [| text pages IH]; intros acc Hacc Hpages; [done |].
  apply Forall_cons in Hpages as [Htext Hpages]. simpl.
  apply IH; [| done]. by repeat apply blank_app.
Qed.

(** [extract_text] on a PDF without extractable text. *)
Lemma extract_text_blank (content : bytes) (name : str) (pages : list str)
    (w : World Ext) :
  pdf_page_texts content = inr pages → Forall blank pages →
  extract_text content name w = (Ok [], w).
Proof.
  intros Hpdf Hpages. unfold extract_text. rewrite try_reraise.
  unfold bind, get. rewrite Hpdf.
  by rewrite strip_blank by (by apply full_text_blank).
Qed.

(** With [chunk_size <= chunk_overlap], [extract_text] never returns
    on a PDF that has extractable text. *)
Lemma extract_text_hangs (content : bytes) (name : str) (pages : list str)
    (w : World Ext) :
  pdf_page_texts content = inr pages →
  let full_text := foldl (λ full_text text, full_text ++ (text ++ newline)) [] pages in
  truthy (strip full_text) = true →
  chunk_size (pdf_processor w) ≤ chunk_overlap (pdf_processor w) →
  extract_text content name w = (Hang, w).
Proof.
  intros Hpdf full_text Htext Hge. unfold extract_text. rewrite try_reraise.
  unfold bind, get. rewrite Hpdf. fold full_text. rewrite Htext. cbn [negb].
  unfold _create_chunks. rewrite loop_stuck; [done | done | | done].
  intros Hnil. by rewrite Hnil in Htext.
Qed.

(** [generate_embeddings] on no text at all, with the Azure OpenAI
    backend: no request is sent, and the log line fails on the empty
    list of embeddings. *)
Lemma generate_embeddings_nil (w : World Ext) :
  use_azure_openai (embedding_service w) = true →
  generate_embeddings [] w
  = (Raise (IndexError (lit "list index out of range")), w).
Proof.
  intros Hazure. unfold generate_embeddings. rewrite try_reraise.
  unfold bind at 1, get. rewrite Hazure.
  unfold bind at 1, _generate_azure_embeddings, bind at 1, get.
  by change (range 0 (len []) 16) with (@nil Z).
Qed.

Lemma upload_blob_config (name : str) (content : bytes) (w w' : World Ext) r :
  upload_blob name content w = (r, w') → w' = set_ext w (ext w').
Proof.
  unfold upload_blob. rewrite try_reraise. unfold bind, get.
  destruct (blob_mock_mode (blob_client w)).
  - intros [= <- <-]. by destruct w.
  - apply call_config.
Qed.
End handler_facts.

(** C7 fails on the code. For a well-formed PDF without extractable
    text, [extract_text] does return the empty list, but with the Azure
    OpenAI backend the upload then ends in the response 500
    ["Processing failed: list index out of range"]: [generate_embeddings]
    reads [embeddings[0]] for its log line. The blob is uploaded by
    then. *)
Theorem upload_without_text_fails `{!SDK Ext} (file : UploadFile) (pages : list str)
    (blob_url : str) (w w1 : World Ext) :
  endswith (filename file) (lit ".pdf") = true →
  pdf_page_texts (content file) = inr pages →
  Forall blank pages →
  use_azure_openai (embedding_service w) = true →
  upload_blob (filename file) (content file) w = (Ok blob_url, w1) →
  extract_text (content file) (filename file) w1 = (Ok [], w1)
  ∧ upload_pdfs [file] w
    = (Raise (HTTPException 500 (lit "Processing failed: list index out of range")), w1).
Proof.
  intros Hname Hpages Hblank Hazure Hblob.
  pose proof (extract_text_blank _ (filename file) _ w1 Hpages Hblank) as Htext.
  split; [done |].
  assert (use_azure_openai (embedding_service w1) = true) as Hazure1.
  { apply upload_blob_config in Hblob. rewrite Hblob. by destruct w. }
  pose proof (generate_embeddings_nil w1 Hazure1) as Hembed.
  unfold upload_pdfs, try_except. cbn [for_each]. rewrite Hname. cbn [negb].
  rewrite (bind_raise _ _ w (IndexError (lit "list index out of range")) w1); [done |].
  apply bind_raise. rewrite (bind_ok _ _ _ _ _ Hblob).
  rewrite (bind_ok _ _ _ _ _ Htext). by apply bind_raise.
Qed.

Lemma upload_without_text_fails_witness :
  let scan := {| filename := lit "scan.pdf"; content := [] |} in
  upload_pdfs [scan] (start true true)
  = (Raise (HTTPException 500 (lit "Processing failed: list index out of range")),
     start true true).
Proof.
  intros scan.
  apply (upload_without_text_fails scan [[]]
           (lit "https://mockaccount.blob.core.windows.net/pdf-documents/scan.pdf")
           (start true true) (start true true));
    try reflexivity.
  repeat constructor.
Defined.



(** * Further properties *)

(** ** The chunker: nothing but white space is lost *)

Lemma lstrip_keeps (c : ascii) (s : str) :
  c ∈ s → isspace c = false → c ∈ lstrip s.
Proof.
  intros Hin Hc. induction s as [| x s IH]; [done |]. simpl.
  destruct (isspace x) eqn:Hx; [| done].
  apply elem_of_cons in Hin as [-> | Hin]; [congruence | by apply IH].
Qed.

Lemma elem_of_rev {A} (x : A) (l : list A) : x ∈ rev l ↔ x ∈ l.
Proof. rewrite !list_elem_of_In. symmetry. apply in_rev. Qed.

Lemma strip_keeps (c : ascii) (s : str) :
  c ∈ s → isspace c = false → c ∈ strip s.
Proof.
  intros Hin Hc. unfold strip, rstrip.
  apply elem_of_rev, lstrip_keeps; [| done].
  by apply elem_of_rev, lstrip_keeps.
Qed.

Lemma nonblank_of_char (c : ascii) (s : str) :
  c ∈ s → isspace c = false → nonblank s = true.
Proof.
  intros Hin Hc. unfold nonblank.
  pose proof (strip_keeps c s Hin Hc) as Hs.
  destruct (strip s); [by apply elem_of_nil in Hs | done].
Qed.

Lemma blank_nonblank (s : str) : blank s ↔ nonblank s = false.
Proof.
  split.
  - intros Hs. unfold nonblank. by rewrite strip_blank.
  - intros Hs. unfold blank. apply Is_true_true, forallb_True, Forall_forall.
    intros c Hc. destruct (isspace c) eqn:Hsp; [done |].
    by rewrite (nonblank_of_char c s Hc Hsp) in Hs.
Qed.

(** The window that holds position [p]. *)
Lemma window_of_position (self : PDFProcessor) (text : str) (p : nat) (c : ascii) :
  0 ≤ chunk_overlap self < chunk_size self →
  text !! p = Some c →
  ∃ (i : nat) (start : Z),
    window_starts self text !! i = Some start
    ∧ 0 ≤ start ≤ Z.of_nat p
    ∧ window self text start !! (p - Z.to_nat start)%nat = Some c.
Proof.
  intros HO Hp.
  pose proof (lookup_lt_Some _ _ _ Hp) as HpL.
  set (step := chunk_size self - chunk_overlap self).
  set (k := Z.of_nat p `div` step).
  pose proof (Z.div_mod (Z.of_nat p) step ltac:(lia)) as Hdm.
  pose proof (Z.mod_pos_bound (Z.of_nat p) step ltac:(lia)) as Hmod.
  assert (0 ≤ k) as Hk by (apply Z.div_pos; lia).
  fold k in Hdm.
  exists (Z.to_nat k), (k * step). split; [| split; [nia |]].
  - apply lookup_window_starts; [lia |]. fold step.
    rewrite Z2Nat.id by lia. split; [done |]. unfold len. nia.
  - unfold window. rewrite slice_nonneg by nia.
    rewrite lookup_take_lt by nia. rewrite lookup_drop.
    rewrite <- Hp. f_equal. nia.
Qed.

(** The page texts, joined, are blank exactly when every page is. *)
Lemma join_pages_blank (pages : list str) :
  blank (join_pages pages) ↔ Forall blank pages.
Proof.
  unfold join_pages.
  assert (∀ acc : str,
    blank (foldl (λ full_text text, full_text ++ (text ++ newline)) acc pages)
    ↔ blank acc ∧ Forall blank pages) as Hgen.
  { induction pages as [| text pages IH]; intros acc; simpl.
    - split; [by intros ? | by intros [? _]].
    - rewrite IH, Forall_cons. unfold blank.
      rewrite !forallb_app. simpl. rewrite !andb_true_iff. tauto. }
  rewrite Hgen. split; [by intros [_ ?] | by intros ?].
Qed.

(** Every window kept is non-empty and at most [chunk_size] long. *)
Lemma windows_spec_bound (self : PDFProcessor) (text : str) :
  0 ≤ chunk_overlap self < chunk_size self →
  Forall (λ chunk, 0 < len chunk ≤ chunk_size self) (windows_spec self text).
Proof.
  intros HO. apply Forall_forall. intros chunk Hin.
  apply list_elem_of_filter in Hin as [Hnb Hin].
  apply list_elem_of_fmap in Hin as (s & -> & Hs).
  apply list_elem_of_lookup in Hs as [i Hs].
  apply lookup_window_starts in Hs as [-> Hs]; [| lia].
  split; [by apply nonblank_nonempty |].
  unfold window. rewrite len_slice by nia. lia.
Qed.

(** X1: with [0 <= chunk_overlap < chunk_size], every character of the
    text that is not white space is found in a produced chunk, at the
    place its offset gives: the chunker loses nothing but white space. *)
Theorem chunks_cover_text (self : PDFProcessor) (text : str) (p : nat) (c : ascii) :
  0 ≤ chunk_overlap self < chunk_size self →
  text !! p = Some c → isspace c = false →
  ∃ spans,
    create_chunks_spans (S (length text)) self text 0 [] = Some spans
    ∧ _create_chunks self text = Some spans.*2
    ∧ ∃ start chunk,
        (start, chunk) ∈ spans ∧ 0 ≤ start ≤ Z.of_nat p
        ∧ chunk !! (p - Z.to_nat start)%nat = Some c.
Proof.
  intros HO Hp Hc. exists (spans_spec self text).
  assert (create_chunks_spans (S (length text)) self text 0 [] = Some (spans_spec self text))
    as Hspans by (apply create_spans_windows; lia).
  split; [done |]. split.
  - unfold _create_chunks.
    change (@nil str) with ((@nil (Z * str)).*2).
    by rewrite spans_chunks, Hspans.
  - destruct (window_of_position self text p c HO Hp) as (i & start & Hi & Hstart & Hw).
    exists start, (window self text start). split; [| done].
    unfold spans_spec. apply list_elem_of_filter. split.
    + simpl. apply (nonblank_of_char c); [| done].
      by apply list_elem_of_lookup_2 in Hw.
    + apply list_elem_of_fmap. exists start. split; [done |].
      by apply list_elem_of_lookup_2 in Hi.
Qed.

Lemma chunks_cover_text_witness :
  let self := {| chunk_size := 4; chunk_overlap := 1 |} in
  ∃ spans,
    create_chunks_spans 15 self (lit "a      cdefghi") 0 [] = Some spans
    ∧ _create_chunks self (lit "a      cdefghi") = Some spans.*2
    ∧ ∃ start chunk,
        (start, chunk) ∈ spans ∧ 0 ≤ start ≤ 8
        ∧ chunk !! (8 - Z.to_nat start)%nat = Some "d"%char.
Proof.
  apply (chunks_cover_text {| chunk_size := 4; chunk_overlap := 1 |}
           (lit "a      cdefghi") 8 "d"); [simpl; lia | reflexivity | reflexivity].
Defined.

(** ** The chunker: the text can be glued back together *)

Lemma rebuild_snoc (overlap : Z) (chunks : list str) (c : str) :
  chunks ≠ [] →
  rebuild overlap (chunks ++ [c]) = rebuild overlap chunks ++ slice c (Some overlap) None.
Proof.
  destruct chunks as [| c0 chunks]; [done |]. intros _. simpl.
  rewrite fmap_app, join_app. simpl. by rewrite app_nil_r, app_assoc.
Qed.

(** The first [m + 1] windows glue to the text up to the end of the last
    of them. *)
Lemma rebuild_windows (self : PDFProcessor) (text : str) (m : nat) :
  0 ≤ chunk_overlap self < chunk_size self →
  rebuild (chunk_overlap self)
    (window self text
       <$> ((λ k, k * (chunk_size self - chunk_overlap self)) <$> seqZ 0 (Z.of_nat (S m))))
  = take (Z.to_nat (Z.of_nat m * (chunk_size self - chunk_overlap self)
                    + chunk_size self)) text.
Proof.
  intros HO. induction m as [| m IH].
  - change (seqZ 0 (Z.of_nat 1)) with [0]. simpl.
    unfold window. rewrite slice_nonneg by lia. rewrite app_nil_r.
    change (Z.to_nat 0) with 0%nat. rewrite drop_0. f_equal. lia.
  - rewrite (seqZ_S 0 (S m)), !fmap_app.
    change (window self text <$> ((λ k, k * (chunk_size self - chunk_overlap self))
                                    <$> [0 + Z.of_nat (S m)]))
      with [window self text ((0 + Z.of_nat (S m)) * (chunk_size self - chunk_overlap self))].
    rewrite rebuild_snoc.
    2: { rewrite (seqZ_cons 0) by lia. done. }
    rewrite IH. unfold window.
    rewrite slice_from by lia. rewrite slice_nonneg by nia.
    rewrite skipn_firstn_comm, drop_drop.
    set (step := chunk_size self - chunk_overlap self) in *.
    replace (Z.to_nat ((0 + Z.of_nat (S m)) * step) + Z.to_nat (chunk_overlap self))%nat
      with (Z.to_nat (Z.of_nat m * step + chunk_size self)) by nia.
    rewrite take_take_drop. f_equal. nia.
Qed.

Lemma filter_all {A} (P : A → Prop) `{!∀ x, Decision (P x)} (l : list A) :
  Forall P l → filter P l = l.
Proof.
  induction 1 as [| x l Hx Hl IH]; [done |].
  rewrite filter_cons. case_decide; [by f_equal | done].
Qed.

(** X2: with [0 <= chunk_overlap < chunk_size] and no blank window, the
    produced chunks glue back to the text: the first chunk followed by
    every later chunk without its first [chunk_overlap] characters is
    the text itself. *)
Theorem chunks_rebuild_text (self : PDFProcessor) (text : str) :
  0 ≤ chunk_overlap self < chunk_size self →
  Forall (λ start, nonblank (window self text start) = true) (window_starts self text) →
  ∃ chunks, _create_chunks self text = Some chunks
            ∧ rebuild (chunk_overlap self) chunks = text.
Proof.
  intros HO Hall. exists (windows_spec self text). split.
  { unfold _create_chunks. apply create_chunks_windows; lia. }
  unfold windows_spec. rewrite filter_all by (by apply Forall_fmap).
  unfold window_starts, range.
  replace (len text - 0 + (chunk_size self - chunk_overlap self) - 1)
    with (len text + (chunk_size self - chunk_overlap self) - 1) by lia.
  destruct (window_count self text ltac:(lia)) as ([Hn0 HnL] & Hend & _).
  set (n := (len text + (chunk_size self - chunk_overlap self) - 1)
              `div` (chunk_size self - chunk_overlap self)) in *.
  clearbody n.
  destruct (Z.to_nat n) as [| m] eqn:Hn.
  - assert (n = 0) as -> by lia. unfold len in Hend. destruct text; [done | simpl in Hend; lia].
  - replace n with (Z.of_nat (S m)) in * by lia.
    replace ((λ k, 0 + k * (chunk_size self - chunk_overlap self)) <$> seqZ 0 (Z.of_nat (S m)))
      with ((λ k, k * (chunk_size self - chunk_overlap self)) <$> seqZ 0 (Z.of_nat (S m)))
      by (apply list_fmap_ext; intros; lia).
    rewrite rebuild_windows by done. apply take_ge. unfold len in *. nia.
Qed.

Lemma chunks_rebuild_text_witness :
  ∃ chunks, _create_chunks {| chunk_size := 4; chunk_overlap := 1 |} (lit "abcdefghij")
            = Some chunks
            ∧ rebuild 1 chunks = lit "abcdefghij".
Proof.
  apply (chunks_rebuild_text {| chunk_size := 4; chunk_overlap := 1 |} (lit "abcdefghij")).
  - simpl. lia.
  - vm_compute. repeat constructor.
Defined.

(** ** [extract_text] with a sound configuration *)

(** X3: with [0 <= chunk_overlap < chunk_size] (as in [PDFProcessor()]),
    [extract_text] on a PDF that parses always returns, with the state
    as it was; the list it returns is empty exactly when no page has a
    character other than white space, and every chunk in it is
    non-blank and at most [chunk_size] characters long. *)
Theorem extract_text_returns `{!SDK Ext} (pdf_content : bytes) (name : str)
    (pages : list str) (w : World Ext) :
  0 ≤ chunk_overlap (pdf_processor w) < chunk_size (pdf_processor w) →
  pdf_page_texts pdf_content = inr pages →
  ∃ chunks,
    extract_text pdf_content name w = (Ok chunks, w)
    ∧ (chunks = [] ↔ Forall blank pages)
    ∧ Forall (λ chunk, nonblank chunk = true
                       ∧ 0 < len chunk ≤ chunk_size (pdf_processor w)) chunks.
Proof.
  intros HO Hpdf.
  destruct (decide (nonblank (join_pages pages) = true)) as [Hnb | Hb].
  - exists (windows_spec (pdf_processor w) (join_pages pages)). split; [| split].
    + unfold extract_text. rewrite try_reraise. unfold bind, get. rewrite Hpdf.
      fold (join_pages pages). unfold nonblank in Hnb. rewrite Hnb. cbn [negb].
      unfold _create_chunks. by rewrite create_chunks_windows by lia.
    + split.
      * intros Hnil. exfalso.
        assert (¬ blank (join_pages pages)) as Hnot
          by (rewrite blank_nonblank; congruence).
        apply Hnot. apply Is_true_true, forallb_True, Forall_forall. intros c Hc.
        destruct (isspace c) eqn:Hsp; [done |].
        apply list_elem_of_lookup in Hc as [p Hp].
        destruct (window_of_position _ _ p c HO Hp) as (i & start & Hi & _ & Hw).
        assert (window (pdf_processor w) (join_pages pages) start
                ∈ windows_spec (pdf_processor w) (join_pages pages)) as Hin.
        { apply list_elem_of_filter. split.
          - apply (nonblank_of_char c); [by apply list_elem_of_lookup_2 in Hw | done].
          - apply list_elem_of_fmap. exists start. split; [done |].
            by apply list_elem_of_lookup_2 in Hi. }
        rewrite Hnil in Hin. by apply elem_of_nil in Hin.
      * intros Hblank%join_pages_blank%blank_nonblank. congruence.
    + apply Forall_forall. intros chunk Hin.
      pose proof Hin as [Hnbc _]%list_elem_of_filter. split; [done |].
      pose proof (windows_spec_bound (pdf_processor w) (join_pages pages) HO) as Hall.
      by apply (proj1 (Forall_forall _ _) Hall).
  - apply not_true_is_false in Hb. exists []. split; [| split; [| done]].
    + unfold extract_text. rewrite try_reraise. unfold bind, get. rewrite Hpdf.
      fold (join_pages pages). unfold nonblank in Hb. by rewrite Hb.
    + split; [intros _ | done]. by apply join_pages_blank, blank_nonblank.
Qed.

Lemma extract_text_returns_witness :
  ∃ chunks,
    extract_text (byte_of_ascii <$> lit "hello world") (lit "a.pdf") (start true true)
    = (Ok chunks, start true true)
    ∧ (chunks = [] ↔ Forall blank [lit "hello world"])
    ∧ Forall (λ chunk, nonblank chunk = true ∧ 0 < len chunk ≤ 1000) chunks.
Proof.
  apply (extract_text_returns (byte_of_ascii <$> lit "hello world") (lit "a.pdf")
           [lit "hello world"] (start true true)).
  - simpl. lia.
  - reflexivity.
Defined.

(** ** The masker: what it leaves alone and what it bounds *)

Lemma no_hit_search (r : re.regex) (s : str) :
  (∀ (i : nat) m, re.finditer r s !! i = Some (re.Hit m) → False) →
  re.search r s = false.
Proof.
  unfold re.search. intros Hno.
  induction (re.finditer r s) as [| p ps IH]; [done |]. simpl.
  destruct p as [c | m]; simpl.
  - apply IH. intros i m Hi. apply (Hno (S i) m Hi).
  - destruct (Hno 0%nat m eq_refl).
Qed.

(** Every match of the pattern holds an [@]. *)
Lemma email_match_at prev m rest :
  re.matches email_pattern prev m rest → "@"%char ∈ m.
Proof.
  intros (l & d & t & -> & _)%email_pattern_inv.
  rewrite !elem_of_app. right. left. change (lit "@") with ["@"%char]. left.
Qed.

Lemma no_at_no_match (text : str) :
  "@"%char ∉ text → re.search email_pattern text = false.
Proof.
  intros Hat. apply no_hit_search. intros i m Hi. apply Hat.
  pose proof (re_facts.cuts_piece _ _ _ _ (email_cuts text) i _ Hi) as [_ Hm].
  apply email_match_at in Hm.
  rewrite <- (finditer_source text), (source_split _ i _ Hi). simpl.
  rewrite !elem_of_app. auto.
Qed.

(** X4: a string without [@] passes email masking unchanged; if, in
    addition, it has at most 30 characters, or neither a slash nor a
    backslash, [mask_sensitive_data] returns it as it is. *)
Theorem mask_without_at (text mask_char : str) :
  "@"%char ∉ text →
  mask_emails mask_char text = text
  ∧ (len text ≤ 30 ∨ (("/"%char ∉ text) ∧ ("\"%char ∉ text)) →
     mask_sensitive_data text mask_char = text).
Proof.
  intros Hat.
  assert (mask_emails mask_char text = text) as Hemails.
  { unfold mask_emails. apply sub_no_match. by apply no_at_no_match. }
  split; [done |]. intros Hplain.
  rewrite mask_sensitive_data_unfold, Hemails.
  destruct (path_trigger text) eqn:Htrig; [| done].
  apply path_trigger_spec in Htrig. destruct Hplain as [? | [? ?]]; [lia | tauto].
Qed.

Lemma mask_without_at_witness :
  mask_emails star (lit "report-2024 final.pdf") = lit "report-2024 final.pdf"
  ∧ mask_sensitive_data (lit "report-2024 final.pdf") star = lit "report-2024 final.pdf".
Proof.
  assert ("@"%char ∉ lit "report-2024 final.pdf") as Hat.
  { intros Hin%list_elem_of_In. vm_compute in Hin. intuition discriminate. }
  destruct (mask_without_at (lit "report-2024 final.pdf") star Hat) as [H1 H2].
  split; [exact H1 |]. apply H2. left. vm_compute. discriminate.
Defined.

(** X5: whatever the input, a result of [mask_sensitive_data] that
    contains a slash or a backslash has at most 30 characters (for a
    mask of one character). *)
Theorem masked_path_bound (text mask_char : str) :
  len mask_char = 1 →
  let out := mask_sensitive_data text mask_char in
  ("/"%char ∈ out ∨ "\"%char ∈ out) → len out ≤ 30.
Proof.
  intros Hc out Hslash. subst out.
  rewrite mask_sensitive_data_unfold in *.
  destruct (path_trigger (mask_emails mask_char text)) eqn:Htrig.
  - apply path_trigger_spec in Htrig as [Hlen _].
    by rewrite mask_path_len.
  - destruct (Z.le_gt_cases (len (mask_emails mask_char text)) 30) as [| Hlong]; [done |].
    assert (path_trigger (mask_emails mask_char text) = true) as Habs
      by (apply path_trigger_spec; split; [lia | done]).
    congruence.
Qed.

Lemma masked_path_bound_witness :
  len (mask_sensitive_data (lit "/home/user/documents/reports/2024/q1.pdf") star) ≤ 30.
Proof.
  apply (masked_path_bound (lit "/home/user/documents/reports/2024/q1.pdf") star eq_refl).
  left. apply list_elem_of_In. vm_compute. auto.
Defined.

(** X6: the replacement of a matched address of 6 or 7 characters hides
    nothing: its first 3 characters and the end of its last 4 are the
    whole address. *)
Theorem short_email_unhidden (prev : option ascii) (m rest mask_char : str) :
  len mask_char = 1 →
  re.matches email_pattern prev m rest →
  len m ≤ 7 →
  let out := mask_email mask_char m in
  take 3 out ++ drop (Z.to_nat (15 - len m)) out = m.
Proof.
  intros Hc Hm Hlen out. subst out.
  pose proof (email_match_len _ _ _ Hm) as Hmin.
  rewrite mask_email_shape by done.
  assert (length (mul mask_char 5) = 5%nat) as Hstars.
  { pose proof (len_mul_char mask_char 5 Hc ltac:(lia)) as H5. unfold len in H5. lia. }
  unfold len in *.
  rewrite take_app_le by (rewrite length_take; lia).
  rewrite take_take. replace (3 `min` 3)%nat with 3%nat by lia.
  rewrite drop_app_ge by (rewrite length_take; lia).
  rewrite length_take.
  replace (Z.to_nat (15 - Z.of_nat (length m)) - 3 `min` length m)%nat
    with (length (mul mask_char 5) + (3 - (length m - 4)))%nat by lia.
  rewrite drop_app_add.
  rewrite drop_drop.
  replace (length m - 4 + (3 - (length m - 4)))%nat with 3%nat by lia.
  apply take_drop.
Qed.

Lemma short_email_unhidden_witness :
  take 3 (mask_email star (lit "a@b.co")) ++ drop 9 (mask_email star (lit "a@b.co"))
  = lit "a@b.co".
Proof.
  apply (short_email_unhidden None (lit "a@b.co") [] star eq_refl).
  - apply email_pattern_intro. exists (lit "a"), (lit "b"), (lit "co").
    repeat split; done.
  - vm_compute. discriminate.
Defined.

(** ** Batching of the embedding requests *)

(** Slices [l[0:b]], [l[b:2b]], ... up to the [m]-th put side by side. *)
Lemma batches_take {A} (l : list A) (b : Z) (m : nat) :
  0 < b →
  mjoin ((λ i, slice l (Some i) (Some (i + b)))
           <$> ((λ k, 0 + k * b) <$> seqZ 0 (Z.of_nat m)))
  = take (Z.to_nat (Z.of_nat m * b)) l.
Proof.
  intros Hb. induction m as [| m IH].
  - by rewrite seqZ_nil by lia.
  - rewrite (seqZ_S 0 m), !fmap_app, join_app, IH.
    rewrite !list_fmap_singleton. simpl. rewrite app_nil_r.
    rewrite slice_nonneg by nia.
    replace (Z.to_nat (0 + (0 + Z.of_nat m) * b)) with (Z.to_nat (Z.of_nat m * b)) by lia.
    rewrite take_take_drop. f_equal. nia.
Qed.

(** The batches of [range(0, len(texts), batch_size)] partition the texts. *)
Lemma batches_partition {A} (l : list A) (b : Z) :
  0 < b →
  mjoin ((λ i, slice l (Some i) (Some (i + b))) <$> range 0 (len l) b) = l.
Proof.
  intros Hb. unfold range.
  pose proof (len_nonneg l) as HL.
  pose proof (Z.div_mod (len l - 0 + b - 1) b ltac:(lia)) as Hdm.
  pose proof (Z.mod_pos_bound (len l - 0 + b - 1) b Hb) as Hm.
  set (n := (len l - 0 + b - 1) `div` b) in *.
  assert (0 ≤ n) by nia.
  rewrite <- (Z2Nat.id n) by lia. rewrite batches_take by done.
  apply take_ge. unfold len in *. nia.
Qed.

Section embedding_facts.
Context {Ext : Type} `{!SDK Ext}.

Lemma set_ext_set_ext (w : World Ext) (x x' : Ext) :
  set_ext (set_ext w x) x' = set_ext w x'.
Proof. done. Qed.

Lemma set_ext_same (w : World Ext) : set_ext w (ext w) = w.
Proof. by destruct w. Qed.

(** The loop of [_generate_azure_embeddings] against a deployment that
    answers every batch with [f] of each of its texts. *)
Lemma azure_loop (f : str → list float) (deployment : str) (texts : list str)
    (starts : list Z) :
  (∀ batch x, ∃ x', embeddings_create deployment batch x = (Ok (f <$> batch), x')) →
  ∀ (acc : list (list float)) (w : World Ext),
  ∃ x',
    for_each starts acc
      (λ embeddings i,
         let batch := slice texts (Some i) (Some (i + 16)) in
         let* batch_embeddings := call (embeddings_create deployment batch) in
         ret (embeddings ++ batch_embeddings)) w
    = (Ok (acc ++ (f <$> mjoin ((λ i, slice texts (Some i) (Some (i + 16))) <$> starts))),
       set_ext w x').
Proof.
  intros Hapi.
  set (body := λ (embeddings : list (list float)) (i : Z),
         let batch := slice texts (Some i) (Some (i + 16)) in
         let* batch_embeddings := call (embeddings_create deployment batch) in
         ret (embeddings ++ batch_embeddings)).
  induction starts as [| i starts IH]; intros acc w.
  - exists (ext w). simpl. by rewrite app_nil_r, set_ext_same.
  - destruct (Hapi (slice texts (Some i) (Some (i + 16))) (ext w)) as [x1 Hx1].
    destruct (IH (acc ++ (f <$> slice texts (Some i) (Some (i + 16)))) (set_ext w x1))
      as [x' Hx'].
    exists x'. cbn [for_each].
    assert (body acc i w
            = (Ok (acc ++ (f <$> slice texts (Some i) (Some (i + 16)))), set_ext w x1))
      as Hstep.
    { unfold body, bind, call. by rewrite Hx1. }
    rewrite (bind_ok _ _ _ _ _ Hstep), Hx', set_ext_set_ext.
    rewrite fmap_cons. change (mjoin (?a :: ?l)) with (a ++ mjoin l).
    by rewrite fmap_app, app_assoc.
Qed.

Lemma generate_azure_run (f : str → list float) (texts : list str) (w : World Ext) :
  (∀ batch x, ∃ x',
     embeddings_create (deployment_name (embedding_service w)) batch x
     = (Ok (f <$> batch), x')) →
  ∃ x', _generate_azure_embeddings texts w = (Ok (f <$> texts), set_ext w x').
Proof.
  intros Hapi.
  destruct (azure_loop f _ texts (range 0 (len texts) 16) Hapi [] w) as [x' Hx'].
  exists x'. etransitivity; [exact Hx' |].
  by rewrite batches_partition.
Qed.

Lemma generate_embeddings_run (f : str → list float) (texts : list str) (w : World Ext) :
  use_azure_openai (embedding_service w) = true →
  texts ≠ [] →
  (∀ batch x, ∃ x',
     embeddings_create (deployment_name (embedding_service w)) batch x
     = (Ok (f <$> batch), x')) →
  ∃ x', generate_embeddings texts w = (Ok (f <$> texts), set_ext w x').
Proof.
  intros Hazure Hne Hapi.
  destruct (generate_azure_run f texts w Hapi) as [x' Hx'].
  exists x'. unfold generate_embeddings. rewrite try_reraise.
  unfold bind at 1, get. rewrite Hazure.
  rewrite (bind_ok _ _ _ _ _ Hx').
  destruct texts as [| t texts]; [done |]. done.
Qed.
End embedding_facts.

(** X7: with the Azure OpenAI backend, against a deployment that answers
    every batch with one vector per text, [generate_embeddings] on a
    non-empty list returns one vector per text, in the order of the
    texts, whatever the number of batches of 16; only the outside world
    changes. *)
Theorem embeddings_in_order `{!SDK Ext} (f : str → list float) (texts : list str)
    (w : World Ext) :
  use_azure_openai (embedding_service w) = true →
  texts ≠ [] →
  (∀ batch x, ∃ x',
     embeddings_create (deployment_name (embedding_service w)) batch x
     = (Ok (f <$> batch), x')) →
  ∃ x', generate_embeddings texts w = (Ok (f <$> texts), set_ext w x').
Proof. apply generate_embeddings_run. Qed.

Lemma embeddings_in_order_witness :
  let texts := replicate 40 (lit "chunk") in
  ∃ x', generate_embeddings texts (start true true)
        = (Ok (length_embedding <$> texts), set_ext (start true true) x').
Proof.
  intros texts.
  apply (embeddings_in_order length_embedding texts (start true true)).
  - reflexivity.
  - discriminate.
  - intros batch x. by eexists.
Defined.

(** ** Writing to the mock index *)

Section store_facts.
Context {Ext : Type} `{!SDK Ext}.

Lemma set_mock_storage_ext (w : World Ext) (docs : list document) (x : Ext) :
  set_mock_storage (set_ext w x) docs = set_ext (set_mock_storage w docs) x.
Proof. done. Qed.

(** The loop of [store_vectors] when [uuid4] answers. *)
Lemma store_loop_run (metadata : gmap str pyval) (pairs : list (list float * str)) :
  uuid_total →
  ∀ (documents : list document) (doc_ids : list str) (idx : nat) (w : World Ext),
  ∃ new_ids x',
    for_each pairs (documents, doc_ids, Z.of_nat idx)
      (λ '(documents, doc_ids, idx) '(embedding, text),
         let* doc_id := call uuid4 in
         let document : document :=
           {[ lit "id" := VStr doc_id;
              lit "content" := VStr text;
              lit "embedding" := VFloats embedding;
              lit "filename" := dict_get metadata "filename" (VStr []);
              lit "chunk_id" := VInt idx ]} in
         ret (documents ++ [document], doc_ids ++ [doc_id], idx + 1)) w
    = (Ok (documents ++ imap (λ i, stored_document metadata (idx + i)) (zip new_ids pairs),
           doc_ids ++ new_ids,
           Z.of_nat (idx + length pairs)),
       set_ext w x')
    ∧ length new_ids = length pairs.
Proof.
  intros Huuid.
  set (body := λ '(documents, doc_ids, idx) '(embedding, text),
         let* doc_id := call uuid4 in
         let document : document :=
           {[ lit "id" := VStr doc_id;
              lit "content" := VStr text;
              lit "embedding" := VFloats embedding;
              lit "filename" := dict_get metadata "filename" (VStr []);
              lit "chunk_id" := VInt idx ]} in
         ret (documents ++ [document], doc_ids ++ [doc_id], idx + 1)).
  induction pairs as [| [embedding text] pairs IH]; intros documents doc_ids idx w.
  - exists [], (ext w). split; [| done]. simpl.
    by rewrite !app_nil_r, Nat.add_0_r, set_ext_same.
  - destruct (Huuid (ext w)) as (doc_id & x1 & Hid).
    set (doc := stored_document metadata idx (doc_id, (embedding, text))).
    destruct (IH (documents ++ [doc]) (doc_ids ++ [doc_id]) (S idx) (set_ext w x1))
      as (new_ids & x' & Hrun & Hlen).
    exists (doc_id :: new_ids), x'. split; [| simpl; lia].
    assert (body (documents, doc_ids, Z.of_nat idx) (embedding, text) w
            = (Ok (documents ++ [doc], doc_ids ++ [doc_id], Z.of_nat (S idx)),
               set_ext w x1)) as Hstep.
    { unfold body, bind, call. rewrite Hid. unfold ret. do 3 f_equal. lia. }
    cbn [for_each]. rewrite (bind_ok _ _ _ _ _ Hstep), Hrun, set_ext_set_ext.
    do 2 f_equal. f_equal; [f_equal |].
    + rewrite <- app_assoc. f_equal. simpl. rewrite Nat.add_0_r. f_equal.
      apply imap_ext. intros i entry _. simpl. f_equal. lia.
    + by rewrite <- app_assoc.
    + simpl. lia.
Qed.

(** [store_vectors] in mock mode when [uuid4] answers. *)
Lemma store_vectors_mock_run (embeddings : list (list float)) (texts : list str)
    (metadata : gmap str pyval) (w : World Ext) :
  vs_mock_mode (vector_store w) = true →
  uuid_total →
  ∃ doc_ids x',
    store_vectors embeddings texts metadata w
    = (Ok doc_ids,
       set_ext (set_mock_storage w
                  (mock_storage (vector_store w)
                   ++ imap (stored_document metadata) (zip doc_ids (zip embeddings texts))))
               x')
    ∧ length doc_ids = length (zip embeddings texts).
Proof.
  intros Hmock Huuid.
  destruct (store_loop_run metadata (zip embeddings texts) Huuid [] [] 0 w)
    as (doc_ids & x' & Hrun & Hlen).
  exists doc_ids, x'. split; [| done].
  unfold store_vectors. rewrite try_reraise.
  change (0 : Z) with (Z.of_nat 0).
  rewrite (bind_ok _ _ _ _ _ Hrun).
  unfold bind, get, put, ret. simpl. rewrite Hmock. simpl.
  by rewrite set_mock_storage_ext.
Qed.
End store_facts.

(** X8: in mock mode, when [uuid4] answers, [store_vectors] returns one
    identifier per (embedding, text) pair, as many as the shorter of the
    two lists has, and appends to the store, after the documents already
    there, one document per pair in order: the identifier, the text,
    the embedding, the filename of the metadata (or [""]) and the index
    of the pair as [chunk_id]. Nothing else of the process changes. *)
Theorem store_vectors_appends `{!SDK Ext} (embeddings : list (list float))
    (texts : list str) (metadata : gmap str pyval) (w : World Ext) :
  vs_mock_mode (vector_store w) = true →
  uuid_total →
  ∃ doc_ids x',
    store_vectors embeddings texts metadata w
    = (Ok doc_ids,
       set_ext (set_mock_storage w
                  (mock_storage (vector_store w)
                   ++ imap (stored_document metadata) (zip doc_ids (zip embeddings texts))))
               x')
    ∧ length doc_ids = (length embeddings `min` length texts)%nat.
Proof.
  intros Hmock Huuid.
  destruct (store_vectors_mock_run embeddings texts metadata w Hmock Huuid)
    as (doc_ids & x' & Hrun & Hlen).
  exists doc_ids, x'. split; [done |]. by rewrite Hlen, length_zip.
Qed.

Lemma logging_uuid_total : uuid_total (Ext := list string).
Proof. intros x. by eexists _, _. Qed.

Lemma store_vectors_appends_witness :
  ∃ doc_ids x',
    store_vectors [[QArith_base.Qmake 1 1]; [QArith_base.Qmake 2 1]]
      [lit "first"; lit "second"; lit "third"] ∅ (start true true)
    = (Ok doc_ids,
       set_ext (set_mock_storage (start true true)
                  ([] ++ imap (stored_document ∅)
                           (zip doc_ids (zip [[QArith_base.Qmake 1 1]; [QArith_base.Qmake 2 1]]
                                             [lit "first"; lit "second"; lit "third"]))))
               x')
    ∧ length doc_ids = 2%nat.
Proof.
  apply (store_vectors_appends [[QArith_base.Qmake 1 1]; [QArith_base.Qmake 2 1]]
           [lit "first"; lit "second"; lit "third"] ∅ (start true true)).
  - reflexivity.
  - exact logging_uuid_total.
Defined.

(** X9: a call of [store_vectors] that does not return leaves the mock
    store exactly as it was: no document of a failed call is kept. *)
Theorem store_vectors_no_partial_write `{!SDK Ext} (embeddings : list (list float))
    (texts : list str) (metadata : gmap str pyval) (w w' : World Ext)
    (r : outcome (list str)) :
  store_vectors embeddings texts metadata w = (r, w') →
  (∀ doc_ids, r ≠ Ok doc_ids) →
  vector_store w' = vector_store w.
Proof.
  unfold store_vectors. rewrite try_reraise. intros Hrun Hfail.
  unfold bind at 1 in Hrun.
  match type of Hrun with
  | context [for_each ?ps ?acc ?body w] =>
      destruct (for_each ps acc body w) as [[[[documents doc_ids] idx] | e |] w1] eqn:Hloop;
      destruct (store_loop_records _ _ _ _ _ _ Hloop (Forall_nil_2 _)) as [Hvs _]
  end; try (by injection Hrun as <- <-).
  unfold bind, get, put, ret in Hrun. simpl in Hrun.
  destruct (vs_mock_mode (vector_store w1)).
  - injection Hrun as <- <-. by destruct (Hfail doc_ids).
  - destruct (call (upload_documents documents) w1) as [[n | e |] w2] eqn:Hcall;
      apply call_config in Hcall; injection Hrun as <- <-;
      [by destruct (Hfail doc_ids) | by rewrite Hcall | by rewrite Hcall].
Qed.

(** An outside world in which [uuid4] fails on its second call. *)
Lemma store_vectors_no_partial_write_witness :
  let failing : SDK nat :=
    {| uuid4 := λ n, (match n with
                      | O => Ok (lit "id-0")
                      | S _ => Raise (ServiceError (lit "no entropy"))
                      end, S n);
       pdf_page_texts := λ _, inr [];
       embeddings_create := λ _ _, ret [];
       model_encode := λ _, ret [];
       upload_documents := λ _, ret 0;
       vector_search := λ _ _, ret [];
       filter_search := λ _, ret [];
       delete_documents := λ _, ret tt;
       blob_upload := λ _ _ _, ret [];
       blob_delete := λ _ _, ret tt |} in
  let w := {| pdf_processor := PDFProcessor_init;
              embedding_service := {| use_azure_openai := true; deployment_name := [] |};
              vector_store := {| vs_mock_mode := true; mock_storage := [indexed_document] |};
              blob_client := {| blob_mock_mode := true; container_name := [] |};
              ext := 0%nat |} in
  vector_store (store_vectors (SDK0 := failing) [[]; []] [lit "a"; lit "b"] ∅ w).2
  = vector_store w.
Proof.
  intros failing w.
  apply (store_vectors_no_partial_write (SDK0 := failing) [[]; []] [lit "a"; lit "b"] ∅ w _
           (store_vectors (SDK0 := failing) [[]; []] [lit "a"; lit "b"] ∅ w).1).
  - by destruct (store_vectors _ _ _ _).
  - intros doc_ids. vm_compute. discriminate.
Defined.

(** ** Store, search and delete together *)

Section round_trips.
Context {Ext : Type} `{!SDK Ext}.

Lemma stored_document_record metadata idx entry :
  is_record (stored_document metadata idx entry).
Proof. repeat split; by eexists. Qed.

Lemma stored_documents_records metadata (entries : list (str * (list float * str))) :
  Forall is_record (imap (stored_document metadata) entries).
Proof.
  apply Forall_forall. intros doc Hin.
  apply elem_of_lookup_imap in Hin as (i & entry & -> & _).
  apply stored_document_record.
Qed.

(** The texts of the hits are the contents of the documents. *)
Lemma hits_contents (docs : list document) (hits : list hit) :
  Forall2 hit_of docs hits →
  (λ h, Some (hit_text h)) <$> hits = (λ doc : document, doc !! lit "content") <$> docs.
Proof.
  induction 1 as [| doc h docs hits (Hc & _) _ IH]; [done |].
  rewrite !fmap_cons, IH. by rewrite Hc.
Qed.

Lemma stored_contents metadata (doc_ids : list str) (embeddings : list (list float))
    (texts : list str) :
  length embeddings = length texts → length doc_ids = length texts →
  (λ doc : document, doc !! lit "content")
    <$> imap (stored_document metadata) (zip doc_ids (zip embeddings texts))
  = (λ t, Some (VStr t)) <$> texts.
Proof.
  intros He Hi. apply list_eq. intros i.
  rewrite !list_lookup_fmap, list_lookup_imap.
  destruct (texts !! i) as [t |] eqn:Ht.
  - pose proof (lookup_lt_Some _ _ _ Ht) as Hlt.
    destruct (lookup_lt_is_Some_2 embeddings i ltac:(lia)) as [e Hei].
    destruct (lookup_lt_is_Some_2 doc_ids i ltac:(lia)) as [id Hid].
    assert (zip doc_ids (zip embeddings texts) !! i = Some (id, (e, t))) as ->.
    { apply lookup_zip_with_Some. exists id, (e, t). split; [done |]. split; [done |].
      apply lookup_zip_with_Some. by exists e, t. }
    done.
  - assert (zip doc_ids (zip embeddings texts) !! i = None) as ->; [| done].
    apply lookup_ge_None. rewrite !length_zip.
    apply lookup_ge_None in Ht. lia.
Qed.

(** [l[:b]] for a negative [b]: all but the last [-b] elements. *)
Lemma slice_prefix_neg {A} (l : list A) (b : Z) :
  b < 0 → slice l None (Some b) = take (length l - Z.to_nat (- b)) l.
Proof.
  intros Hb. unfold slice, slice_bound, len. cbn [from_option].
  destruct (Z.ltb_spec b 0); [| lia]. rewrite Z.sub_0_r.
  change (Z.to_nat 0) with 0%nat. rewrite drop_0. f_equal. lia.
Qed.

Lemma filter_nothing {A} (P : A → Prop) `{!∀ x, Decision (P x)} (l : list A) :
  Forall (λ x, ¬ P x) l → filter P l = [].
Proof.
  induction 1 as [| x l Hx Hl IH]; [done |].
  rewrite filter_cons. by case_decide.
Qed.

Lemma mock_search_run (query_embedding : list float) (top_k : Z) (w : World Ext) :
  vs_mock_mode (vector_store w) = true →
  Forall is_record (mock_storage (vector_store w)) →
  ∃ hits,
    search query_embedding top_k w = (Ok hits, w)
    ∧ Forall2 hit_of (slice (mock_storage (vector_store w)) None (Some top_k)) hits.
Proof.
  intros Hmock Hrec.
  destruct (mock_hits (slice (mock_storage (vector_store w)) None (Some top_k)) [] w)
    as (hits & Hrun & Hhits).
  { unfold slice. by apply Forall_take, Forall_drop. }
  exists hits. split; [| done].
  unfold search. rewrite try_reraise. unfold bind at 1, get. by rewrite Hmock.
Qed.
End round_trips.

(** X10: in mock mode [search] does not check the sign of [top_k]: for a
    negative [top_k] it returns the hits of all the stored records but
    the last [-top_k], in insertion order. *)
Theorem mock_search_negative `{!SDK Ext} (w : World Ext) (query_embedding : list float)
    (top_k : Z) :
  vs_mock_mode (vector_store w) = true →
  top_k < 0 →
  let storage := mock_storage (vector_store w) in
  Forall is_record storage →
  ∃ hits,
    search query_embedding top_k w = (Ok hits, w)
    ∧ Forall2 hit_of (take (length storage - Z.to_nat (- top_k)) storage) hits
    ∧ length hits = (length storage - Z.to_nat (- top_k))%nat.
Proof.
  intros Hmock Hk storage Hrec.
  destruct (mock_search_run query_embedding top_k w Hmock Hrec) as (hits & Hrun & Hhits).
  fold storage in Hhits. rewrite slice_prefix_neg in Hhits by done.
  exists hits. split; [done |]. split; [done |].
  apply Forall2_length in Hhits. rewrite <- Hhits, length_take. lia.
Qed.

Lemma mock_search_negative_witness :
  let w := set_mock_storage (start true true)
             [indexed_document; indexed_document; indexed_document] in
  ∃ hits, search (Ext := list string) [] (-1) w = (Ok hits, w) ∧ length hits = 2%nat.
Proof.
  intros w.
  destruct (mock_search_negative w [] (-1)) as (hits & Hrun & _ & Hlen).
  - reflexivity.
  - lia.
  - repeat constructor; by eexists.
  - exists hits. split; [exact Hrun | exact Hlen].
Defined.

(** X11: store, then search. In mock mode, starting from an empty store,
    after [store_vectors] of as many embeddings as texts, [search] with
    [top_k >= 0] returns hits whose texts are the first [top_k] texts
    stored, in order, each with score 0.95. *)
Theorem store_then_search `{!SDK Ext} (embeddings : list (list float)) (texts : list str)
    (metadata : gmap str pyval) (query_embedding : list float) (top_k : Z)
    (w : World Ext) :
  vs_mock_mode (vector_store w) = true →
  mock_storage (vector_store w) = [] →
  uuid_total →
  length embeddings = length texts →
  0 ≤ top_k →
  ∃ doc_ids w1 hits,
    store_vectors embeddings texts metadata w = (Ok doc_ids, w1)
    ∧ search query_embedding top_k w1 = (Ok hits, w1)
    ∧ hit_text <$> hits = VStr <$> take (Z.to_nat top_k) texts
    ∧ Forall (λ h, hit_score h = QArith_base.Qmake 95 100) hits.
Proof.
  intros Hmock Hempty Huuid Hlen Hk.
  destruct (store_vectors_mock_run embeddings texts metadata w Hmock Huuid)
    as (doc_ids & x' & Hstore & Hids).
  rewrite Hempty, app_nil_l in Hstore.
  rewrite length_zip in Hids.
  set (docs := imap (stored_document metadata) (zip doc_ids (zip embeddings texts))) in *.
  set (w1 := set_ext (set_mock_storage w docs) x') in *.
  destruct (mock_search_run query_embedding top_k w1) as (hits & Hsearch & Hhits).
  { done. } { apply stored_documents_records. }
  exists doc_ids, w1, hits. split; [done |]. split; [done |].
  change (mock_storage (vector_store w1)) with docs in Hhits.
  rewrite slice_prefix in Hhits by done. split.
  - pose proof (hits_contents _ _ Hhits) as Hc.
    rewrite fmap_take in Hc. unfold docs in Hc.
    rewrite stored_contents in Hc by lia.
    rewrite <- fmap_take in Hc.
    apply (inj (fmap Some)). by rewrite <- !list_fmap_compose.
  - apply Forall_forall. intros h Hh.
    apply list_elem_of_lookup in Hh as [i Hi].
    destruct (Forall2_lookup_r _ _ _ _ _ Hhits Hi) as (doc & _ & _ & Hs & _). done.
Qed.

Lemma store_then_search_witness :
  ∃ doc_ids w1 hits,
    store_vectors [[]; []; []] [lit "a"; lit "b"; lit "c"] ∅ (start true true)
    = (Ok doc_ids, w1)
    ∧ search [] 2 w1 = (Ok hits, w1)
    ∧ hit_text <$> hits = VStr <$> take (Z.to_nat 2) [lit "a"; lit "b"; lit "c"]
    ∧ Forall (λ h, hit_score h = QArith_base.Qmake 95 100) hits.
Proof.
  apply (store_then_search [[]; []; []] [lit "a"; lit "b"; lit "c"] ∅ [] 2
           (start true true)); try reflexivity.
  - exact logging_uuid_total.
  - lia.
Defined.

Section delete_facts.
Context {Ext : Type} `{!SDK Ext}.

Lemma stored_document_filename metadata idx entry (name : str) :
  metadata !! lit "filename" = Some (VStr name) →
  stored_document metadata idx entry !! lit "filename" = Some (VStr name).
Proof.
  intros Hname. unfold stored_document, dict_get. rewrite Hname.
  by rewrite !lookup_insert_ne, lookup_insert_eq by done.
Qed.
End delete_facts.

(** X12: store, then delete. In mock mode, when the metadata give the
    filename [name] and no stored document has that filename, deleting
    by that filename right after [store_vectors] removes exactly the
    documents just written, returns their number, and leaves the store
    as it was before the call of [store_vectors]. *)
Theorem store_then_delete `{!SDK Ext} (embeddings : list (list float)) (texts : list str)
    (metadata : gmap str pyval) (name : str) (w : World Ext) :
  vs_mock_mode (vector_store w) = true →
  uuid_total →
  metadata !! lit "filename" = Some (VStr name) →
  Forall (λ doc : document, doc !! lit "filename" ≠ Some (VStr name))
         (mock_storage (vector_store w)) →
  ∃ doc_ids w1 w2,
    store_vectors embeddings texts metadata w = (Ok doc_ids, w1)
    ∧ delete_by_metadata (lit "filename") name w1 = (Ok (len doc_ids), w2)
    ∧ mock_storage (vector_store w2) = mock_storage (vector_store w).
Proof.
  intros Hmock Huuid Hname Hold.
  destruct (store_vectors_mock_run embeddings texts metadata w Hmock Huuid)
    as (doc_ids & x' & Hstore & Hids).
  set (docs := imap (stored_document metadata) (zip doc_ids (zip embeddings texts))) in *.
  set (w1 := set_ext (set_mock_storage w (mock_storage (vector_store w) ++ docs)) x') in *.
  assert (Forall (λ doc : document, doc !! lit "filename" = Some (VStr name)) docs) as Hnew.
  { apply Forall_forall. intros doc Hin.
    apply elem_of_lookup_imap in Hin as (i & entry & -> & _).
    by apply stored_document_filename. }
  pose proof (delete_by_metadata_mock (lit "filename") name w1 Hmock) as Hdel.
  cbv zeta in Hdel.
  change (mock_storage (vector_store w1)) with (mock_storage (vector_store w) ++ docs) in Hdel.
  rewrite !filter_app in Hdel.
  rewrite (filter_all (λ doc : document, doc !! lit "filename" ≠ Some (VStr name))) in Hdel
    by done.
  rewrite (filter_nothing (λ doc : document, doc !! lit "filename" = Some (VStr name))
             (mock_storage (vector_store w))) in Hdel by done.
  rewrite (filter_all (λ doc : document, doc !! lit "filename" = Some (VStr name)) docs)
    in Hdel by done.
  rewrite (filter_nothing (λ doc : document, doc !! lit "filename" ≠ Some (VStr name)) docs)
    in Hdel.
  2: { eapply Forall_impl; [exact Hnew |]. intros doc Hd Hne. by apply Hne. }
  rewrite app_nil_l, app_nil_r in Hdel.
  eexists doc_ids, w1, _. split; [done |]. split.
  - rewrite Hdel. do 2 f_equal. unfold len, docs.
    rewrite length_imap, length_zip. lia.
  - done.
Qed.

Lemma store_then_delete_witness :
  ∃ doc_ids w1 w2,
    store_vectors [[]; []] [lit "a"; lit "b"] {[ lit "filename" := VStr (lit "new.pdf") ]}
      (set_mock_storage (start true true) [indexed_document])
    = (Ok doc_ids, w1)
    ∧ delete_by_metadata (lit "filename") (lit "new.pdf") w1 = (Ok (len doc_ids), w2)
    ∧ mock_storage (vector_store w2) = [indexed_document].
Proof.
  apply (store_then_delete [[]; []] [lit "a"; lit "b"]
           {[ lit "filename" := VStr (lit "new.pdf") ]} (lit "new.pdf")
           (set_mock_storage (start true true) [indexed_document])).
  - reflexivity.
  - exact logging_uuid_total.
  - reflexivity.
  - repeat constructor. vm_compute. discriminate.
Defined.

(** X13: in mock mode, after [delete_by_metadata] no stored document has
    the value in the field, and the same call once more returns 0 and
    changes nothing. *)
Theorem mock_delete_twice `{!SDK Ext} (w : World Ext) (field value : str) :
  vs_mock_mode (vector_store w) = true →
  ∃ n w1,
    delete_by_metadata field value w = (Ok n, w1)
    ∧ Forall (λ doc : document, doc !! field ≠ Some (VStr value))
             (mock_storage (vector_store w1))
    ∧ delete_by_metadata field value w1 = (Ok 0, w1).
Proof.
  intros Hmock. eexists _, _. split; [by apply delete_by_metadata_mock |].
  set (kept := filter (λ doc : document, doc !! field ≠ Some (VStr value))
                 (mock_storage (vector_store w))).
  assert (Forall (λ doc : document, doc !! field ≠ Some (VStr value)) kept) as Hkept.
  { apply Forall_forall. by intros doc [? _]%list_elem_of_filter. }
  split; [done |].
  rewrite delete_by_metadata_mock by done.
  change (mock_storage (vector_store (set_mock_storage w kept))) with kept.
  rewrite (filter_nothing (λ doc : document, doc !! field = Some (VStr value)) kept).
  2: { eapply Forall_impl; [exact Hkept |]. by intros doc Hd. }
  rewrite (filter_all (λ doc : document, doc !! field ≠ Some (VStr value)) kept) by done.
  done.
Qed.

Lemma mock_delete_twice_witness :
  ∃ n w1,
    delete_by_metadata (lit "filename") (lit "indexed.pdf")
      (set_mock_storage (start true true) [indexed_document])
    = (Ok n, w1)
    ∧ Forall (λ doc : document, doc !! lit "filename" ≠ Some (VStr (lit "indexed.pdf")))
             (mock_storage (vector_store w1))
    ∧ delete_by_metadata (lit "filename") (lit "indexed.pdf") w1 = (Ok 0, w1).
Proof.
  apply (mock_delete_twice (set_mock_storage (start true true) [indexed_document])
           (lit "filename") (lit "indexed.pdf")).
  reflexivity.
Defined.

(** X14: against a live index, [delete_by_metadata] searches with the
    filter [field eq 'value'], and, when every result carries an [id],
    returns the number of results; [delete_documents] is called with
    the identifiers of the results in order, and is not called at all
    when the search finds nothing. The mock store is not touched. *)
Theorem live_delete `{!SDK Ext} (field value : str) (results : list document)
    (ids : list pyval) (x1 : Ext) (w : World Ext) :
  vs_mock_mode (vector_store w) = false →
  filter_search (field ++ lit " eq '" ++ value ++ lit "'") (ext w) = (Ok results, x1) →
  (λ result : document, result !! lit "id") <$> results = Some <$> ids →
  let doc_ids := (λ id, ({[ lit "id" := id ]} : document)) <$> ids in
  (results = [] → delete_by_metadata field value w = (Ok 0, set_ext w x1))
  ∧ (∀ x2, results ≠ [] → delete_documents doc_ids x1 = (Ok tt, x2) →
       delete_by_metadata field value w = (Ok (len results), set_ext w x2)).
Proof.
  intros Hlive Hsearch Hids doc_ids.
  set (body := λ (doc_ids : list document) (result : document),
         let* id := getitem (W := World Ext) result "id" in
         ret (doc_ids ++ [({[ lit "id" := id ]} : document)])).
  assert (∀ (rs : list document) (vs : list pyval) (acc : list document) (w0 : World Ext),
    (λ result : document, result !! lit "id") <$> rs = Some <$> vs →
    for_each rs acc body w0
    = (Ok (acc ++ ((λ id, ({[ lit "id" := id ]} : document)) <$> vs)), w0)) as Hloop.
  { induction rs as [| r rs IH]; intros [| i vs] acc w0 Heq; try done.
    - simpl. by rewrite app_nil_r.
    - rewrite !fmap_cons in Heq. injection Heq as Hr Heq.
      cbn [for_each].
      assert (body acc r w0 = (Ok (acc ++ [({[ lit "id" := i ]} : document)]), w0)) as Hstep.
      { unfold body, getitem, bind, ret.
        change (lit "id") with ["i"%char; "d"%char]. by rewrite Hr. }
      rewrite (bind_ok _ _ _ _ _ Hstep), (IH vs) by done.
      by rewrite <- app_assoc. }
  assert (len results = len doc_ids) as Hlen.
  { unfold len, doc_ids. rewrite length_fmap.
    apply (f_equal length) in Hids. rewrite !length_fmap in Hids. lia. }
  assert (call (filter_search (field ++ lit " eq '" ++ value ++ lit "'")) w
          = (Ok results, set_ext w x1)) as Hcall.
  { unfold call. by rewrite Hsearch. }
  split.
  - intros ->. destruct ids; [| done].
    unfold delete_by_metadata. rewrite try_reraise.
    unfold bind at 1, get. rewrite Hlive.
    rewrite (bind_ok _ _ _ _ _ Hcall). done.
  - intros x2 Hne Hdel.
    unfold delete_by_metadata. rewrite try_reraise.
    unfold bind at 1, get. rewrite Hlive.
    rewrite (bind_ok _ _ _ _ _ Hcall).
    rewrite (bind_ok _ _ _ _ _ (Hloop results ids [] _ Hids)).
    rewrite app_nil_l. fold doc_ids.
    assert (truthy doc_ids = true) as ->.
    { destruct results, ids; try done. }
    assert (call (delete_documents doc_ids) (set_ext w x1) = (Ok tt, set_ext w x2)) as Hcall2.
    { unfold call. simpl. by rewrite Hdel. }
    rewrite (bind_ok _ _ _ _ _ Hcall2). unfold ret. by rewrite Hlen.
Qed.

Lemma live_delete_witness :
  delete_by_metadata (lit "filename") (lit "indexed.pdf") (start false true)
  = (Ok 1, set_ext (start false true) ["filter_search"; "delete_documents"]%string).
Proof.
  apply (live_delete (lit "filename") (lit "indexed.pdf") [indexed_document]
           [VStr (lit "doc-0")] ["filter_search"%string] (start false true));
    try reflexivity.
  discriminate.
Defined.

(** ** The upload handler *)



(** X16: the blob is uploaded before the PDF is read. When the PDF does
    not parse, the request is answered 500 with the parser's message,
    in the state the upload of the blob left, and the files after it are
    not processed. *)
Theorem upload_parse_failure `{!SDK Ext} (file : UploadFile) (files : list UploadFile)
    (e : exn) (blob_url : str) (w w1 : World Ext) :
  endswith (filename file) (lit ".pdf") = true →
  upload_blob (filename file) (content file) w = (Ok blob_url, w1) →
  pdf_page_texts (content file) = inl e →
  upload_pdfs (file :: files) w
  = (Raise (HTTPException 500 (lit "Processing failed: " ++ exn_str e)), w1).
Proof.
  intros Hname Hblob Hpdf.
  assert (extract_text (content file) (filename file) w1 = (Raise e, w1)) as Htext.
  { unfold extract_text. rewrite try_reraise. unfold bind, get. by rewrite Hpdf. }
  unfold upload_pdfs, try_except. cbn [for_each]. rewrite Hname. cbn [negb].
  rewrite (bind_raise _ _ w e w1); [done |].
  apply bind_raise. rewrite (bind_ok _ _ _ _ _ Hblob).
  by apply bind_raise.
Qed.

(** An outside world in which the PDF parser refuses every file. *)
Lemma upload_parse_failure_witness :
  let unreadable : SDK (list string) :=
    {| uuid4 := logged "uuid4" [];
       pdf_page_texts := λ _, inl (ServiceError (lit "EOF marker not found"));
       embeddings_create := λ _ _, logged "embeddings_create" [];
       model_encode := λ _, logged "model_encode" [];
       upload_documents := λ _, logged "upload_documents" 0;
       vector_search := λ _ _, logged "vector_search" [];
       filter_search := λ _, logged "filter_search" [];
       delete_documents := λ _, logged "delete_documents" tt;
       blob_upload := λ _ _ _, logged "blob_upload" (lit "https://account.example/a.pdf");
       blob_delete := λ _ _, logged "blob_delete" tt |} in
  let file := {| filename := lit "a.pdf"; content := [] |} in
  upload_pdfs (SDK0 := unreadable) [file; file] (start false true)
  = (Raise (HTTPException 500 (lit "Processing failed: EOF marker not found")),
     set_ext (start false true) ["blob_upload"%string]).
Proof.
  intros unreadable file.
  apply (upload_parse_failure (SDK0 := unreadable) file [file]
           (ServiceError (lit "EOF marker not found"))
           (lit "https://account.example/a.pdf")
           (start false true) (set_ext (start false true) ["blob_upload"%string]));
    reflexivity.
Defined.

(** X17: a file that makes the request fail ends the request: the
    answer and the state are the same whatever files follow it. *)
Theorem upload_stops_at_failure `{!SDK Ext} (file : UploadFile) (files : list UploadFile)
    (e : exn) (w w' : World Ext) :
  upload_pdfs [file] w = (Raise e, w') →
  upload_pdfs (file :: files) w = (Raise e, w').
Proof.
  unfold upload_pdfs, try_except. cbn [for_each].
  match goal with
  | |- context [bind (bind ?m _) _] => generalize m
  end.
  intros m. unfold bind, ret.
  destruct (m w) as [[acc | e0 |] w0]; [| done | done].
  by intros [=].
Qed.

Lemma upload_stops_at_failure_witness :
  let scan := {| filename := lit "scan.pdf"; content := [] |} in
  let report := {| filename := lit "report.pdf"; content := byte_of_ascii <$> lit "text" |} in
  upload_pdfs [scan; report] (start true true)
  = (Raise (HTTPException 500 (lit "Processing failed: list index out of range")),
     start true true).
Proof.
  intros scan report.
  apply (upload_stops_at_failure scan [report]
           (HTTPException 500 (lit "Processing failed: list index out of range"))
           (start true true) (start true true)).
  vm_compute. reflexivity.
Defined.

Section upload_facts.
Context {Ext : Type} `{!SDK Ext}.

(** [upload_blob] in mock mode. *)
Lemma upload_blob_mock (name : str) (content : bytes) (w : World Ext) :
  blob_mock_mode (blob_client w) = true →
  upload_blob name content w
  = (Ok (lit "https://mockaccount.blob.core.windows.net/"
           ++ container_name (blob_client w) ++ lit "/" ++ name), w).
Proof.
  intros Hmock. unfold upload_blob. rewrite try_reraise.
  unfold bind, get. by rewrite Hmock.
Qed.

(** [delete_blob] in mock mode. *)
Lemma delete_blob_mock (name : str) (w : World Ext) :
  blob_mock_mode (blob_client w) = true → delete_blob name w = (Ok tt, w).
Proof.
  intros Hmock. unfold delete_blob. rewrite try_reraise.
  unfold bind, get. by rewrite Hmock.
Qed.

(** [extract_text] on a PDF with a character that is not white space. *)
Lemma extract_text_windows (content : bytes) (name : str) (pages : list str)
    (w : World Ext) :
  chunk_overlap (pdf_processor w) < chunk_size (pdf_processor w) →
  pdf_page_texts content = inr pages →
  ¬ Forall blank pages →
  extract_text content name w
  = (Ok (windows_spec (pdf_processor w) (join_pages pages)), w).
Proof.
  intros HO Hpdf Hpages.
  assert (nonblank (join_pages pages) = true) as Hnb.
  { destruct (nonblank (join_pages pages)) eqn:Hnb; [done |].
    by apply blank_nonblank, join_pages_blank in Hnb. }
  unfold extract_text. rewrite try_reraise. unfold bind, get. rewrite Hpdf.
  fold (join_pages pages). unfold nonblank in Hnb. rewrite Hnb. cbn [negb].
  unfold _create_chunks. by rewrite create_chunks_windows by lia.
Qed.

(** A text with a character that is not white space has a chunk. *)
Lemma windows_spec_nonempty (self : PDFProcessor) (text : str) :
  0 ≤ chunk_overlap self < chunk_size self →
  ¬ blank text → windows_spec self text ≠ [].
Proof.
  intros HO Hnot Hnil. apply Hnot.
  apply Is_true_true, forallb_True, Forall_forall. intros c Hc.
  destruct (isspace c) eqn:Hsp; [done |].
  apply list_elem_of_lookup in Hc as [p Hp].
  destruct (window_of_position _ _ p c HO Hp) as (i & start & Hi & _ & Hw).
  assert (window self text start ∈ windows_spec self text) as Hin.
  { apply list_elem_of_filter. split.
    - apply (nonblank_of_char c); [by apply list_elem_of_lookup_2 in Hw | done].
    - apply list_elem_of_fmap. exists start. split; [done |].
      by apply list_elem_of_lookup_2 in Hi. }
  rewrite Hnil in Hin. by apply elem_of_nil in Hin.
Qed.

(** The loop of [query_documents] over the hits of the mock search. *)
Lemma format_hits (docs : list document) (hits : list hit) :
  Forall2 hit_of docs hits →
  Forall (λ doc, is_Some (doc !! lit "chunk_id")
                 ∧ ∃ name, doc !! lit "filename" = Some (VStr name)) docs →
  ∀ (acc : list hit) (w : World Ext),
  ∃ results,
    for_each hits acc
      (λ out result,
         let* filename :=
           mask_value (dict_get (hit_metadata result) "filename" (VStr [])) in
         ret (out ++
              [{| hit_text := hit_text result;
                  hit_score := hit_score result;
                  hit_metadata :=
                    {[ lit "filename" := filename;
                       lit "chunk_id" :=
                         dict_get (hit_metadata result) "chunk_id" (VStr []) ]} |}])) w
    = (Ok (acc ++ results), w)
    ∧ Forall2 masked_hit_of docs results.
Proof.
  induction 1 as [| doc h docs hits Hh Hhits IH]; intros Hdocs acc w.
  - exists []. by rewrite app_nil_r.
  - apply Forall_cons in Hdocs as [([i Hi] & name & Hname) Hdocs].
    destruct Hh as (Hc & Hs & Hf & Hk & _).
    set (r := {| hit_text := hit_text h; hit_score := hit_score h;
                 hit_metadata :=
                   {[ lit "filename" := VStr (mask_sensitive_data name star);
                      lit "chunk_id" := i ]} |}).
    destruct (IH Hdocs (acc ++ [r]) w) as (results & Hrun & Hresults).
    exists (r :: results). split.
    + cbn [for_each].
      match goal with
      | |- bind ?m _ w = _ => assert (m w = (Ok (acc ++ [r]), w)) as Hstep
      end.
      { unfold dict_get. rewrite Hf, Hk, Hname, Hi. done. }
      rewrite (bind_ok _ _ _ _ _ Hstep). rewrite Hrun. by rewrite <- app_assoc.
    + constructor; [| done]. unfold masked_hit_of. subst r.
      cbn [hit_text hit_score hit_metadata]. split; [done |]. split; [done |].
      split; [by exists name |]. by rewrite Hi.
Qed.
End upload_facts.

(** X18: a PDF with text, uploaded with every service in mock mode and
    the Azure OpenAI backend. The handler answers 200 for one file with
    the number of chunks of the joined page texts; the mock index gains
    one document per chunk, in the order of the chunks, each with the
    chunk as content, its embedding and the name of the file; the rest
    of the configuration is as it was. *)
Theorem upload_stores_chunks `{!SDK Ext} (file : UploadFile) (pages : list str)
    (f : str → list float) (w : World Ext) :
  blob_mock_mode (blob_client w) = true →
  vs_mock_mode (vector_store w) = true →
  use_azure_openai (embedding_service w) = true →
  0 ≤ chunk_overlap (pdf_processor w) < chunk_size (pdf_processor w) →
  uuid_total →
  embeds_with (deployment_name (embedding_service w)) f →
  endswith (filename file) (lit ".pdf") = true →
  pdf_page_texts (content file) = inr pages →
  ¬ Forall blank pages →
  let chunks := windows_spec (pdf_processor w) (join_pages pages) in
  let blob_url := lit "https://mockaccount.blob.core.windows.net/"
                    ++ container_name (blob_client w) ++ lit "/" ++ filename file in
  ∃ doc_ids x',
    upload_pdfs [file] w
    = (Ok {| up_message := lit "Successfully processed 1 files";
             up_files := [{| pf_filename := filename file;
                             pf_chunks := len chunks;
                             pf_status := lit "success" |}] |},
       set_ext
         (set_mock_storage w
            (mock_storage (vector_store w)
             ++ imap (stored_document (upload_metadata (filename file) blob_url (len chunks)))
                     (zip doc_ids (zip (f <$> chunks) chunks))))
         x')
    ∧ length doc_ids = length chunks
    ∧ 0 < len chunks.
Proof.
  intros Hblob Hvs Hazure HO Huuid Hapi Hname Hpdf Hpages chunks blob_url.
  assert (chunks ≠ []) as Hne.
  { apply windows_spec_nonempty; [done |]. by rewrite join_pages_blank. }
  pose proof (upload_blob_mock (filename file) (content file) w Hblob) as Hurl.
  fold blob_url in Hurl.
  pose proof (extract_text_windows (content file) (filename file) pages w
                ltac:(lia) Hpdf Hpages) as Htext.
  fold chunks in Htext.
  destruct (generate_embeddings_run f chunks w Hazure Hne Hapi) as [x1 Hemb].
  destruct (store_vectors_mock_run (f <$> chunks) chunks
              (upload_metadata (filename file) blob_url (len chunks))
              (set_ext w x1) Hvs Huuid) as (doc_ids & x' & Hstore & Hlen).
  exists doc_ids, x'. split; [| split].
  - unfold upload_pdfs, try_except. cbn [for_each]. rewrite Hname. cbn [negb].
    unfold bind at 1 2 3. rewrite Hurl.
    unfold bind at 1. rewrite Htext.
    unfold bind at 1. rewrite Hemb.
    unfold bind at 1. fold (upload_metadata (filename file) blob_url (len chunks)).
    rewrite Hstore. reflexivity.
  - rewrite Hlen, length_zip, length_fmap. lia.
  - unfold len. destruct chunks; [done | simpl; lia].
Qed.

Lemma upload_stores_chunks_witness :
  let file := {| filename := lit "a.pdf"; content := byte_of_ascii <$> lit "hello world" |} in
  let w := start true true in
  let chunks := windows_spec (pdf_processor w) (join_pages [lit "hello world"]) in
  let blob_url := lit "https://mockaccount.blob.core.windows.net/"
                    ++ container_name (blob_client w) ++ lit "/" ++ filename file in
  ∃ doc_ids x',
    upload_pdfs [file] w
    = (Ok {| up_message := lit "Successfully processed 1 files";
             up_files := [{| pf_filename := filename file;
                             pf_chunks := len chunks;
                             pf_status := lit "success" |}] |},
       set_ext
         (set_mock_storage w
            (mock_storage (vector_store w)
             ++ imap (stored_document (upload_metadata (filename file) blob_url (len chunks)))
                     (zip doc_ids (zip (length_embedding <$> chunks) chunks))))
         x')
    ∧ length doc_ids = length chunks
    ∧ 0 < len chunks.
Proof.
  intros file w.
  apply (upload_stores_chunks file [lit "hello world"] length_embedding w).
  - reflexivity.
  - reflexivity.
  - reflexivity.
  - simpl. lia.
  - intros x. by eexists _, _.
  - intros batch x. by eexists.
  - reflexivity.
  - reflexivity.
  - intros Hall. apply Forall_cons in Hall as [Hb _]. by vm_compute in Hb.
Defined.

(** X19: a query against the mock index, with the Azure OpenAI backend.
    When every stored document has a content, a chunk number and a
    [str] filename, the handler answers 200 with one entry for each of
    the documents [mock_storage[:top_k]], in order: the content and the
    chunk number of the document, score 0.95, and the filename only
    after [mask_sensitive_data]; the query comes back masked as well,
    and only the outside world changes. *)
Theorem query_masks_filenames `{!SDK Ext} (request : QueryRequest)
    (f : str → list float) (w : World Ext) :
  vs_mock_mode (vector_store w) = true →
  use_azure_openai (embedding_service w) = true →
  embeds_with (deployment_name (embedding_service w)) f →
  let storage := mock_storage (vector_store w) in
  Forall (λ doc, is_Some (doc !! lit "content")
                 ∧ is_Some (doc !! lit "chunk_id")
                 ∧ ∃ name, doc !! lit "filename" = Some (VStr name)) storage →
  ∃ results x',
    query_documents request w
    = (Ok {| qr_results := results;
             qr_query := mask_sensitive_data (query request) star |},
       set_ext w x')
    ∧ Forall2 masked_hit_of (slice storage None (Some (top_k request))) results.
Proof.
  intros Hvs Hazure Hapi storage Hdocs.
  destruct (generate_embeddings_run f [query request] w Hazure ltac:(done) Hapi)
    as [x' Hemb].
  destruct (mock_search_run (f (query request)) (top_k request) (set_ext w x') Hvs)
    as (hits & Hsearch & Hhits).
  { eapply Forall_impl; [exact Hdocs |].
    intros doc (Hc & Hk & name & Hname). repeat split; [done | by eexists | done]. }
  change (mock_storage (vector_store (set_ext w x'))) with storage in Hhits.
  assert (Forall (λ doc : document,
            is_Some (doc !! lit "chunk_id")
            ∧ ∃ name, doc !! lit "filename" = Some (VStr name))
          (slice storage None (Some (top_k request)))) as Hnamed.
  { unfold slice. apply Forall_take, Forall_drop.
    eapply Forall_impl; [exact Hdocs |]. by intros doc (_ & Hk & Hname). }
  destruct (format_hits _ _ Hhits Hnamed [] (set_ext w x'))
    as (results & Hrun & Hresults).
  exists results, x'. split; [| done].
  unfold query_documents, try_except.
  unfold bind at 1. rewrite Hemb. cbn [fmap list_fmap first].
  unfold bind at 1, ret at 1.
  unfold bind at 1. rewrite Hsearch.
  unfold bind at 1. by rewrite Hrun.
Qed.

Lemma query_masks_filenames_witness :
  let w := set_mock_storage (start true true) [indexed_document; indexed_document] in
  ∃ results x',
    query_documents {| query := lit "mail bob@example.com"; top_k := 1 |} w
    = (Ok {| qr_results := results;
             qr_query := mask_sensitive_data (lit "mail bob@example.com") star |},
       set_ext w x')
    ∧ Forall2 masked_hit_of [indexed_document] results.
Proof.
  intros w.
  apply (query_masks_filenames {| query := lit "mail bob@example.com"; top_k := 1 |}
           length_embedding w).
  - reflexivity.
  - reflexivity.
  - intros batch x. by eexists.
  - repeat constructor; by eexists.
Defined.

(** X20: [DELETE /documents/{filename}] with [confirm=true] and every
    service in mock mode. The handler answers 200 with the number of
    stored documents of that filename and leaves the others in the
    index, in order; a filename that was never uploaded is answered 200
    with [vectors_deleted = 0], not an error, and changes nothing. *)
Theorem delete_document_mock `{!SDK Ext} (name : str) (w : World Ext) :
  blob_mock_mode (blob_client w) = true →
  vs_mock_mode (vector_store w) = true →
  let storage := mock_storage (vector_store w) in
  let named := λ doc : document, doc !! lit "filename" = Some (VStr name) in
  delete_document name (Some true) w
  = (Ok {| del_message := lit "Successfully deleted " ++ name;
           vectors_deleted := len (filter named storage) |},
     set_mock_storage w (filter (λ doc, ¬ named doc) storage))
  ∧ (Forall (λ doc, ¬ named doc) storage →
     delete_document name (Some true) w
     = (Ok {| del_message := lit "Successfully deleted " ++ name;
              vectors_deleted := 0 |}, w)).
Proof.
  intros Hblob Hvs storage named.
  assert (delete_document name (Some true) w
    = (Ok {| del_message := lit "Successfully deleted " ++ name;
             vectors_deleted := len (filter named storage) |},
       set_mock_storage w (filter (λ doc, ¬ named doc) storage))) as Hrun.
  { unfold delete_document. cbn [from_option id negb]. unfold try_except.
    rewrite (bind_ok _ _ _ _ _ (delete_by_metadata_mock (lit "filename") name w Hvs)).
    cbv beta.
    by rewrite (bind_ok _ _ _ _ _ (delete_blob_mock name (set_mock_storage w _) Hblob)). }
  split; [done |].
  intros Hnone. rewrite Hrun.
  rewrite (filter_nothing named) by done.
  rewrite (filter_all (λ doc, ¬ named doc)) by done.
  unfold storage. by rewrite set_mock_storage_same.
Qed.

Lemma delete_document_mock_witness :
  let w := set_mock_storage (start true true) [indexed_document] in
  delete_document (lit "indexed.pdf") (Some true) w
  = (Ok {| del_message := lit "Successfully deleted indexed.pdf";
           vectors_deleted := 1 |}, start true true)
  ∧ delete_document (lit "other.pdf") (Some true) w
    = (Ok {| del_message := lit "Successfully deleted other.pdf";
             vectors_deleted := 0 |}, w).
Proof.
  intros w. split.
  - apply (proj1 (delete_document_mock (lit "indexed.pdf") w eq_refl eq_refl)).
  - apply (proj2 (delete_document_mock (lit "other.pdf") w eq_refl eq_refl)).
    repeat constructor. vm_compute. discriminate.
Defined.
